(** * The Kafka consumer group manager

    A shallow embedding of [pkg/common/consumer/consumer_manager.go] and of the
    consumer group factory that accompanies it.

    The manager ([kafkaConsumerGroupManagerImpl]) keeps a map from group ids to
    managed groups and drives them through stop, start and close; the factory
    runs the supervised consume loop and merges error channels.

    Conventions of the embedding:
    - a Go [error] result is an [option error], [None] being [nil];
    - a method of the manager is a function in the state monad [M] over the
      manager's fields;
    - the logger, the control-protocol server handle and the [groupLock] mutex
      carry no value that the results depend on and are left out; every method
      is modelled as running alone (the mutex makes the map accesses atomic);
    - the collaborators whose code lives elsewhere (the sarama constructor, the
      managed group implementation) are the fields of the class
      [Collaborators]; every call made on them is recorded, in order, in the
      ghost field [calls] of the manager. *)

From stdpp Require Import base option list gmap strings.
From Stdlib Require Import ZArith.

Set Default Proof Using "Type*".
Local Open Scope Z_scope.

(** ** Errors *)

(** The errors the manager builds with [fmt.Errorf], the sarama sentinel for a
    closed consumer group, and the errors handed back by collaborators. *)
Inductive error : Type :=
  | ErrCloseNotManaged (groupId : string)
      (* could not close consumer group with id '%s' - group is not present in the managed map *)
  | ErrStopNotManaged (groupId : string)
      (* stop requested for consumer group not in managed list: %s *)
  | ErrStartNotManaged (groupId : string)
      (* start requested for consumer group not in managed list: %s *)
  | ErrVersionMismatch (expected got : Z)
      (* version mismatch; expected %d but got %d *)
  | ErrClosedConsumerGroup
      (* sarama.ErrClosedConsumerGroup *)
  | ErrExternal (msg : string).
      (* any other error value coming from a collaborator *)

(** The three messages that say that a group id is not in the managed map. *)
Definition isNotManaged (e : error) : bool :=
  match e with
  | ErrCloseNotManaged _ | ErrStopNotManaged _ | ErrStartNotManaged _ => true
  | _ => false
  end.

(** [consumeErr == sarama.ErrClosedConsumerGroup] *)
Definition isErrClosedConsumerGroup (e : error) : bool :=
  match e with
  | ErrClosedConsumerGroup => true
  | _ => false
  end.

(** [go.uber.org/multierr]: a combined error is represented by the list of its
    sub-errors, as [multierr.Errors] returns it; [nil] is the empty list. *)
Definition multierr_AppendInto (into : list error) (err : error) : list error :=
  into ++ [err].

(** ** Control-protocol commands *)

(** [commands.CommandLock] *)
Record CommandLock : Type := mkCommandLock {
  Token : string;
  LockBefore : bool;
  UnlockAfter : bool;
}.

(** [commands.ConsumerGroupAsyncCommand]; [Lock] is a pointer and may be nil.
    [Version] is only ever compared for equality, so the width of the integer
    takes no part. *)
Record ConsumerGroupAsyncCommand : Type := mkConsumerGroupAsyncCommand {
  Version : Z;
  GroupId : string;
  Lock : option CommandLock;
}.

Definition internalToken : string := "internal-token".

(** ** Collaborators *)

Class Collaborators : Type := {
  (** [sarama.Config] *)
  Config : Type;
  (** [sarama.ConsumerGroup] *)
  ConsumerGroup : Type;
  (** [KafkaConsumerHandler], with its options *)
  Handler : Type;
  (** the state of one object behind the [managedGroup] interface *)
  managedGroup : Type;
  (** [commands.ConsumerGroupAsyncCommandVersion] *)
  ConsumerGroupAsyncCommandVersion : Z;
  (** [newConsumerGroup = sarama.NewConsumerGroup] *)
  newConsumerGroup : list string → string → Config → error + ConsumerGroup;
  (** [createManagedGroup(ctx, logger, group, cancel, cancelConsume)] *)
  createManagedGroup : ConsumerGroup → managedGroup;
  (** [managedGroup.close()] *)
  mg_close : managedGroup → option error * managedGroup;
  (** [managedGroup.stop()] *)
  mg_stop : managedGroup → option error * managedGroup;
  (** [managedGroup.start(group)] *)
  mg_start : ConsumerGroup → managedGroup → managedGroup;
  (** [managedGroup.processLock(lock, isLockBefore)] *)
  mg_processLock : option CommandLock → bool → managedGroup → option error * managedGroup;
}.

Section Manager.
Context {world : Collaborators}.

(** [kafkaConsumerGroupFactoryImpl] *)
Record kafkaConsumerGroupFactoryImpl : Type := mkFactory {
  config : Config;
  addrs : list string;
}.

(** The calls made on collaborators, with what they returned. *)
Inductive call : Type :=
  | CallNewConsumerGroup (brokers : list string) (groupId : string) (cfg : Config)
      (err : option error)
  | CallStartExisting (groupId : string) (topics : list string)
  | CallCreateManagedGroup (groupId : string)
  | CallProcessLock (groupId : string) (lock : option CommandLock)
      (isLockBefore : bool) (err : option error)
  | CallStop (groupId : string) (err : option error)
  | CallStart (groupId : string)
  | CallClose (groupId : string) (err : option error).

(** [kafkaConsumerGroupManagerImpl]; [groups] is the [groupMap]. Entries are
    only ever set to freshly created objects, so no two ids share one: a map
    to object states is enough. *)
Record kafkaConsumerGroupManagerImpl : Type := mkManager {
  factory : kafkaConsumerGroupFactoryImpl;
  groups : gmap string managedGroup;
  calls : list call;
}.

Definition M (A : Type) : Type :=
  kafkaConsumerGroupManagerImpl → A * kafkaConsumerGroupManagerImpl.

Definition ret {A} (a : A) : M A := λ m, (a, m).
Definition bind {A B} (c : M A) (k : A → M B) : M B :=
  λ m, let '(a, m1) := c m in k a m1.

Notation "x <- c ;; k" := (bind c (λ x, k))
  (at level 100, c at next level, right associativity).
Notation "c ;;; k" := (bind c (λ _, k))
  (at level 100, right associativity).

Definition record (c : call) : M unit :=
  λ m, (tt, mkManager (factory m) (groups m) (calls m ++ [c])).

(** [m.factory = &kafkaConsumerGroupFactoryImpl{...}] *)
Definition setFactory (f : kafkaConsumerGroupFactoryImpl) : M unit :=
  λ m, (tt, mkManager f (groups m) (calls m)).

Definition getFactory : M kafkaConsumerGroupFactoryImpl :=
  λ m, (factory m, m).

(** [getGroup]: [m.groups[groupId]], nil when absent. *)
Definition getGroup (groupId : string) : M (option managedGroup) :=
  λ m, (groups m !! groupId, m).

(** [setGroup]: [m.groups[groupId] = group]. *)
Definition setGroup (groupId : string) (group : managedGroup) : M unit :=
  λ m, (tt, mkManager (factory m) (<[groupId := group]> (groups m)) (calls m)).

(** [removeGroup]: [delete(m.groups, groupId)]. *)
Definition removeGroup (groupId : string) : M unit :=
  λ m, (tt, mkManager (factory m) (delete groupId (groups m)) (calls m)).

(** A method call through the pointer held in the map under [groupId]: the
    object changes in place, which the map to object states shows as a new
    value under the same key. *)
Definition onGroup {A} (groupId : string) (method : managedGroup → A * managedGroup)
    (obj : managedGroup) : M A :=
  let '(a, obj') := method obj in
  setGroup groupId obj' ;;; ret a.

(** Modelled from the spec: [createConsumerGroup], the factory method the
    manager calls, is not among the sources. Section 4.1: it builds a session
    for the group id from the stored broker list and client config, and hands
    a failure back verbatim. *)
Definition createConsumerGroup (groupId : string) : M (error + ConsumerGroup) :=
  c <- getFactory ;;
  let r := newConsumerGroup (addrs c) groupId (config c) in
  record (CallNewConsumerGroup (addrs c) groupId (config c)
            (match r with inl e => Some e | inr _ => None end)) ;;;
  ret r.

(** Modelled from the spec: [startExistingConsumerGroup], which launches the
    supervised consume loop around an existing group, is not among the
    sources. Section 4.4: the start spawns the loop; here the call is only
    recorded, the cancel function it returns stays inside the managed group. *)
Definition startExistingConsumerGroup (group : ConsumerGroup) (groupId : string)
    (topics : list string) (handler : Handler) : M unit :=
  record (CallStartExisting groupId topics).

(** [lockBefore] *)
Definition lockBefore (lock : option CommandLock) (groupId : string) : M (option error) :=
  group <- getGroup groupId ;;
  match group with
  | None => ret None (* Can't lock a nonexistent group *)
  | Some obj =>
      err <- onGroup groupId (mg_processLock lock true) obj ;;
      record (CallProcessLock groupId lock true err) ;;;
      ret err
  end.

(** [unlockAfter] *)
Definition unlockAfter (lock : option CommandLock) (groupId : string) : M (option error) :=
  group <- getGroup groupId ;;
  match group with
  | None => ret None (* Can't unlock a nonexistent group *)
  | Some obj =>
      err <- onGroup groupId (mg_processLock lock false) obj ;;
      record (CallProcessLock groupId lock false err) ;;;
      ret err
  end.

(** [StartConsumerGroup] *)
Definition StartConsumerGroup (groupId : string) (topics : list string)
    (handler : Handler) : M (option error) :=
  r <- createConsumerGroup groupId ;;
  match r with
  | inl err => ret (Some err)
  | inr group =>
      startExistingConsumerGroup group groupId topics handler ;;;
      record (CallCreateManagedGroup groupId) ;;;
      let managedGrp := createManagedGroup group in
      setGroup groupId managedGrp ;;;
      ret None
  end.

(** [CloseConsumerGroup] *)
Definition CloseConsumerGroup (groupId : string) : M (option error) :=
  managedGrp <- getGroup groupId ;;
  match managedGrp with
  | None => ret (Some (ErrCloseNotManaged groupId))
  | Some obj =>
      err <- onGroup groupId mg_close obj ;;
      record (CallClose groupId err) ;;;
      match err with
      | Some e => ret (Some e)
      | None =>
          (* Remove this groupId from the map *)
          removeGroup groupId ;;;
          ret None
      end
  end.

(** [IsManaged] *)
Definition IsManaged (groupId : string) : M bool :=
  group <- getGroup groupId ;;
  ret (bool_decide (is_Some group)).

(** [stopConsumerGroup] *)
Definition stopConsumerGroup (lock : option CommandLock) (groupId : string) : M (option error) :=
  err <- lockBefore lock groupId ;;
  match err with
  | Some e => ret (Some e)
  | None =>
      managedGrp <- getGroup groupId ;;
      match managedGrp with
      | None => ret (Some (ErrStopNotManaged groupId))
      | Some obj =>
          err <- onGroup groupId mg_stop obj ;;
          record (CallStop groupId err) ;;;
          match err with
          | Some e => ret (Some e)
          | None =>
              err <- unlockAfter lock groupId ;;
              match err with
              | Some e => ret (Some e)
              | None => ret None
              end
          end
      end
  end.

(** [startConsumerGroup] *)
Definition startConsumerGroup (lock : option CommandLock) (groupId : string) : M (option error) :=
  err <- lockBefore lock groupId ;;
  match err with
  | Some e => ret (Some e)
  | None =>
      managedGrp <- getGroup groupId ;;
      match managedGrp with
      | None => ret (Some (ErrStartNotManaged groupId))
      | Some obj =>
          r <- createConsumerGroup groupId ;;
          match r with
          | inl e => ret (Some e)
          | inr group =>
              (* Instruct the managed group to use this new ConsumerGroup *)
              onGroup groupId (λ o, (tt, mg_start group o)) obj ;;;
              record (CallStart groupId) ;;;
              err <- unlockAfter lock groupId ;;
              match err with
              | Some e => ret (Some e)
              | None => ret None
              end
          end
      end
  end.

(** The first loop of [Reconfigure], over the keys of [m.groups] in the order
    [keys] in which this run of [range] visits them. *)
Fixpoint stopAll (keys : list string) (multiErr : list error)
    (groupsToRestart : list string) : M (list error * list string) :=
  match keys with
  | [] => ret (multiErr, groupsToRestart)
  | groupId :: rest =>
      err <- stopConsumerGroup
               (Some (mkCommandLock internalToken true false)) groupId ;;
      match err with
      | Some e => stopAll rest (multierr_AppendInto multiErr e) groupsToRestart
      | None =>
          (* Only attempt to restart groups that this function stopped *)
          stopAll rest multiErr (groupsToRestart ++ [groupId])
      end
  end.

(** The second loop of [Reconfigure], over [groupsToRestart]. *)
Fixpoint startAll (groupsToRestart : list string) (multiErr : list error) : M (list error) :=
  match groupsToRestart with
  | [] => ret multiErr
  | groupId :: rest =>
      err <- startConsumerGroup
               (Some (mkCommandLock internalToken false true)) groupId ;;
      match err with
      | Some e => startAll rest (multierr_AppendInto multiErr e)
      | None => startAll rest multiErr
      end
  end.

(** [Reconfigure]. Go leaves the order of [range] over a map unspecified:
    [keys] is the order in which this run visits the keys of [m.groups]. *)
Definition Reconfigure (keys : list string) (brokers : list string) (cfg : Config) :
    M (list error) :=
  stopped <- stopAll keys [] [] ;;
  let '(multiErr, groupsToRestart) := stopped in
  setFactory (mkFactory cfg brokers) ;;;
  startAll groupsToRestart multiErr.

(** ** Reading the recorded calls *)

(** The group a call is made for. *)
Definition callGroup (c : call) : string :=
  match c with
  | CallNewConsumerGroup _ groupId _ _ => groupId
  | CallStartExisting groupId _ => groupId
  | CallCreateManagedGroup groupId => groupId
  | CallProcessLock groupId _ _ _ => groupId
  | CallStop groupId _ => groupId
  | CallStart groupId => groupId
  | CallClose groupId _ => groupId
  end.

(** The error a call returned, if any. *)
Definition callErr (c : call) : option error :=
  match c with
  | CallNewConsumerGroup _ _ _ err => err
  | CallProcessLock _ _ _ err => err
  | CallStop _ err => err
  | CallClose _ err => err
  | CallStartExisting _ _ | CallCreateManagedGroup _ | CallStart _ => None
  end.

Definition isNil (err : option error) : bool :=
  match err with
  | None => true
  | Some _ => false
  end.

(** The locks [Reconfigure] passes to its stops and to its starts. *)
Definition stopLock : CommandLock := mkCommandLock internalToken true false.
Definition startLock : CommandLock := mkCommandLock internalToken false true.

Definition sameLock (l1 l2 : CommandLock) : bool :=
  bool_decide (Token l1 = Token l2) && Bool.eqb (LockBefore l1) (LockBefore l2)
  && Bool.eqb (UnlockAfter l1) (UnlockAfter l2).

(** [stopConsumerGroup] and [startConsumerGroup] both open with [lockBefore],
    which on a registered group is the call [processLock(lock, true)]: that
    call marks one attempt under [lock]. *)
Definition opens (lock : CommandLock) (c : call) : option string :=
  match c with
  | CallProcessLock groupId (Some l) true _ =>
      if sameLock l lock then Some groupId else None
  | _ => None
  end.

(** The groups on which an operation under [lock] was attempted, in order. *)
Definition attempts (lock : CommandLock) (cs : list call) : list string :=
  omap (opens lock) cs.

(** No call made for [groupId] in [cs] returned an error. *)
Definition succeededFor (cs : list call) (groupId : string) : bool :=
  forallb (λ c, negb (bool_decide (callGroup c = groupId)) || isNil (callErr c)) cs.

(** The calls a stop under [stopLock] consists of. *)
Definition isStopCall (c : call) : bool :=
  match c with
  | CallProcessLock _ (Some l) _ _ => sameLock l stopLock
  | CallStop _ _ => true
  | _ => false
  end.

(** The calls a start under [startLock] consists of, the constructor being
    called with [brokers] and [cfg]. *)
Definition isStartCall (brokers : list string) (cfg : Config) (c : call) : Prop :=
  match c with
  | CallProcessLock _ (Some l) _ _ => sameLock l startLock = true
  | CallNewConsumerGroup b _ c' _ => b = brokers ∧ c' = cfg
  | CallStart _ => True
  | _ => False
  end.

(** The order in which a [range] over [m.groups] may visit the keys: any
    arrangement of them. *)
Definition rangeOrder (m : kafkaConsumerGroupManagerImpl) (keys : list string) : Prop :=
  keys ≡ₚ (map_to_list (groups m)).*1.

(** The map [m'] has the keys of the map [m]. *)
Definition sameKeys (m m' : kafkaConsumerGroupManagerImpl) : Prop :=
  ∀ g, is_Some (groups m' !! g) ↔ is_Some (groups m !! g).

(** What one stop or start under the lock [l] leaves in the record of calls:
    calls for that group only, the first of them marking the attempt, and the
    error returned being the error of the call that failed. *)
Definition segment (l : CommandLock) (groupId : string) (err : option error)
    (cs : list call) : Prop :=
  Forall (λ c, callGroup c = groupId) cs
  ∧ attempts l cs = [groupId]
  ∧ omap callErr cs = option_list err.

(** ** The control dispatcher *)

(** What [commandMessage.ParsedCommand()] holds: a
    [*commands.ConsumerGroupAsyncCommand] or a value of another type. *)
Inductive parsedCommand : Type :=
  | ParsedGroupCommand (cmd : ConsumerGroupAsyncCommand)
  | ParsedOther.

(** The replies sent through the [AsyncCommandMessage]. *)
Inductive reply : Type :=
  | NotifySuccess
  | NotifyFailed (err : error).

(** [processAsyncGroupNotification]; the result lists the replies made on
    [commandMessage], oldest first. *)
Definition processAsyncGroupNotification (commandMessage : parsedCommand)
    (groupFunction : option CommandLock → string → M (option error)) : M (list reply) :=
  match commandMessage with
  | ParsedOther => ret []
  | ParsedGroupCommand cmd =>
      if bool_decide (Version cmd ≠ ConsumerGroupAsyncCommandVersion) then
        ret [NotifyFailed
               (ErrVersionMismatch ConsumerGroupAsyncCommandVersion (Version cmd))]
      else
        err <- groupFunction (Lock cmd) (GroupId cmd) ;;
        match err with
        | Some e => ret [NotifyFailed e]
        | None => ret [NotifySuccess]
        end
  end.

End Manager.

(** ** The supervised consume loop of the factory *)

(** What the environment decides in one turn of the loop: the value
    [manager.Consume] returns, and whether [ctx.Done()] is ready when the
    [select] after it runs. *)
Record turn : Type := mkTurn {
  consumeErr : option error;
  ctxDone : bool;
}.

(** What the loop has done once the turns it was given are used up. *)
Record loopRun : Type := mkLoopRun {
  (** the values the loop put on [errorCh], oldest first *)
  sent : list error;
  (** the number of [Consume] calls that returned *)
  consumed : nat;
  (** the goroutine left the [for] loop; otherwise it is inside the next
      [Consume] call *)
  left : bool;
}.

(** The [for] loop of the goroutine started by the factory's
    [StartConsumerGroup]. The sends block while the buffer of [errorCh] is
    full; they are recorded when they complete. *)
Fixpoint consumeLoop (turns : list turn) : loopRun :=
  match turns with
  | [] => mkLoopRun [] 0 false
  | t :: rest =>
      match consumeErr t with
      | Some e =>
          if isErrClosedConsumerGroup e then mkLoopRun [] 1 true
          else if ctxDone t then mkLoopRun [e] 1 true
          else
            let run := consumeLoop rest in
            mkLoopRun (e :: sent run) (S (consumed run)) (left run)
      | None =>
          if ctxDone t then mkLoopRun [] 1 true
          else
            let run := consumeLoop rest in
            mkLoopRun (sent run) (S (consumed run)) (left run)
      end
  end.




(** The turn returns the closed-group sentinel. *)
Definition returnsClosed (t : turn) : bool :=
  match consumeErr t with
  | Some e => isErrClosedConsumerGroup e
  | None => false
  end.

(** ** [customConsumerGroup.Close] against the consume goroutine *)

Module Closing.

(** Where the goroutine started by the factory is. *)
Inductive goroutine : Type :=
  | InLoop          (* inside the [for] loop *)
  | DeferClose      (* in the deferred function, before [close(errorCh)] *)
  | DeferSend       (* blocked in [releasedCh <- true] *)
  | Exited.

#[global] Instance goroutine_eq_dec : EqDecision goroutine.
Proof. solve_decision. Defined.

(** Where a caller of [Close] is. *)
Inductive closer : Type :=
  | AtCancel        (* before [c.cancel()] *)
  | AtReceive       (* blocked in [<-c.releasedCh] *)
  | AtGroupClose    (* before [c.ConsumerGroup.Close()] *)
  | Returned.

Record state : Type := mkState {
  routine : goroutine;
  (** one entry per call of [Close] in progress or finished *)
  closers : list closer;
  (** [ctx] has been cancelled *)
  cancelled : bool;
  (** [errorCh] is closed *)
  errorChClosed : bool;
  (** the number of times the embedded [ConsumerGroup.Close] was invoked *)
  groupCloses : nat;
}.

(** The atomic steps. [releasedCh] has no buffer, so its send and its receive
    happen together. *)
(* The loop may end on the sentinel as well as on a cancelled context, so
   [Leave] is enabled whenever the goroutine is in the loop. *)
Inductive action : Type :=
  | Iterate                 (* the loop runs one more turn *)
  | Leave                   (* a [return] in the loop: the deferred function starts *)
  | CloseErrorCh            (* [close(errorCh)] *)
  | CallClose               (* a new call of [Close] starts *)
  | Cancel (i : nat)        (* caller [i] runs [c.cancel()] *)
  | Release (i : nat)       (* [releasedCh <- true] meets caller [i]'s [<-c.releasedCh] *)
  | GroupClose (i : nat).   (* caller [i] runs [c.ConsumerGroup.Close()] and returns *)

Definition init : state := mkState InLoop [] false false 0.

Definition step (a : action) (s : state) : option state :=
  match a with
  | Iterate =>
      match routine s with
      | InLoop => Some s
      | _ => None
      end
  | Leave =>
      match routine s with
      | InLoop =>
          Some (mkState DeferClose (closers s) (cancelled s) (errorChClosed s) (groupCloses s))
      | _ => None
      end
  | CloseErrorCh =>
      match routine s with
      | DeferClose =>
          Some (mkState DeferSend (closers s) (cancelled s) true (groupCloses s))
      | _ => None
      end
  | CallClose =>
      Some (mkState (routine s) (closers s ++ [AtCancel]) (cancelled s)
              (errorChClosed s) (groupCloses s))
  | Cancel i =>
      match closers s !! i with
      | Some AtCancel =>
          Some (mkState (routine s) (<[i := AtReceive]> (closers s)) true
                  (errorChClosed s) (groupCloses s))
      | _ => None
      end
  | Release i =>
      match routine s, closers s !! i with
      | DeferSend, Some AtReceive =>
          Some (mkState Exited (<[i := AtGroupClose]> (closers s)) (cancelled s)
                  (errorChClosed s) (groupCloses s))
      | _, _ => None
      end
  | GroupClose i =>
      match closers s !! i with
      | Some AtGroupClose =>
          Some (mkState (routine s) (<[i := Returned]> (closers s)) (cancelled s)
                  (errorChClosed s) (S (groupCloses s)))
      | _ => None
      end
  end.

(** A schedule is run from left to right; it is refused when one of its
    actions is not enabled. *)
Fixpoint exec (schedule : list action) (s : state) : option state :=
  match schedule with
  | [] => Some s
  | a :: rest =>
      match step a s with
      | Some s' => exec rest s'
      | None => None
      end
  end.

(** The goroutine is past its loop and [errorCh] is closed. *)
Definition drained (s : state) : Prop :=
  routine s = Exited ∧ errorChClosed s = true.

(** A caller that has not got past [<-c.releasedCh]. *)
Definition held (c : closer) : Prop :=
  c = AtCancel ∨ c = AtReceive.

(** What every reachable state satisfies. *)
Definition invariant (s : state) : Prop :=
  (routine s = DeferSend ∨ routine s = Exited → errorChClosed s = true)
  ∧ (routine s ≠ Exited → Forall held (closers s) ∧ groupCloses s = 0%nat).

(** A run in which [Close] is called, the loop ends and [Close] returns. *)
Definition closeRun : list action :=
  [Iterate; CallClose; Cancel 0; Leave; CloseErrorCh; Release 0; GroupClose 0].

End Closing.

(** ** [mergeErrorChannels] *)

Module Merge.

(** An input channel as the forwarders see it: the values sent on it and not
    yet received, oldest first, and whether its owner has closed it. *)
Record channel : Type := mkChannel {
  pending : list error;
  closed : bool;
}.

(** Where the goroutine that ranges over one input channel is. *)
Inductive forwarder : Type :=
  | Ranging                 (* in [for v := range c], waiting for a value *)
  | Forwarding (v : error)  (* blocked in [out <- v] *)
  | Finished.               (* after [wg.Done()] *)

Record state : Type := mkState {
  inputs : list channel;
  forwarders : list forwarder;
  (** the counter of the [sync.WaitGroup] *)
  wg : Z;
  (** the values the reader of [out] has received, oldest first *)
  out : list error;
  (** the number of times [close(out)] was run *)
  outCloses : nat;
  (** the last goroutine is still in [wg.Wait()] *)
  waiting : bool;
}.

(** The atomic steps: those of the owners of the input channels, of the
    forwarders, and of the goroutine that closes [out]. [out] has no buffer, so
    a forwarder's send and the reader's receive happen together. *)
Inductive action : Type :=
  | Produce (i : nat) (v : error)  (* a value is sent on input [i] *)
  | CloseIn (i : nat)              (* input [i] is closed *)
  | Receive (i : nat)              (* forwarder [i] takes the next value of input [i] *)
  | Deliver (i : nat)              (* [out <- v] of forwarder [i] meets the reader *)
  | Done (i : nat)                 (* forwarder [i] finds input [i] closed and empty: [wg.Done()] *)
  | CloseOut.                      (* [wg.Wait()] returns and [close(out)] runs *)

(** [mergeErrorChannels(channels...)] right after it returns: [wg.Add] has run
    and every goroutine is started. *)
Definition mergeErrorChannels (channels : list channel) : state :=
  mkState channels (replicate (length channels) Ranging)
    (Z.of_nat (length channels)) [] 0 true.

Definition step (a : action) (s : state) : option state :=
  match a with
  | Produce i v =>
      match inputs s !! i with
      | Some c =>
          if closed c then None
          else Some (mkState (<[i := mkChannel (pending c ++ [v]) false]> (inputs s))
                       (forwarders s) (wg s) (out s) (outCloses s) (waiting s))
      | None => None
      end
  | CloseIn i =>
      match inputs s !! i with
      | Some c =>
          if closed c then None
          else Some (mkState (<[i := mkChannel (pending c) true]> (inputs s))
                       (forwarders s) (wg s) (out s) (outCloses s) (waiting s))
      | None => None
      end
  | Receive i =>
      match inputs s !! i, forwarders s !! i with
      | Some (mkChannel (v :: rest) cl), Some Ranging =>
          Some (mkState (<[i := mkChannel rest cl]> (inputs s))
                  (<[i := Forwarding v]> (forwarders s))
                  (wg s) (out s) (outCloses s) (waiting s))
      | _, _ => None
      end
  | Deliver i =>
      match forwarders s !! i with
      | Some (Forwarding v) =>
          if bool_decide (outCloses s = 0%nat) then
            Some (mkState (inputs s) (<[i := Ranging]> (forwarders s))
                    (wg s) (out s ++ [v]) (outCloses s) (waiting s))
          else None (* a send on a closed channel panics *)
      | _ => None
      end
  | Done i =>
      match inputs s !! i, forwarders s !! i with
      | Some (mkChannel [] true), Some Ranging =>
          Some (mkState (inputs s) (<[i := Finished]> (forwarders s))
                  (wg s - 1) (out s) (outCloses s) (waiting s))
      | _, _ => None
      end
  | CloseOut =>
      if waiting s && bool_decide (wg s = 0) then
        Some (mkState (inputs s) (forwarders s) (wg s) (out s) (S (outCloses s)) false)
      else None
  end.

Fixpoint exec (schedule : list action) (s : state) : option state :=
  match schedule with
  | [] => Some s
  | a :: rest =>
      match step a s with
      | Some s' => exec rest s'
      | None => None
      end
  end.

(** The values a schedule sends on the input channels, in the order of the
    schedule. *)
Definition produced (schedule : list action) : list error :=
  omap (λ a, match a with Produce _ v => Some v | _ => None end) schedule.

(** The value a forwarder holds between its receive and its send. *)
Definition held (f : forwarder) : list error :=
  match f with
  | Forwarding v => [v]
  | _ => []
  end.

(** Everything that is still on its way to [out]. *)
Definition inFlight (s : state) : list error :=
  concat (pending <$> inputs s) ++ concat (held <$> forwarders s).

Definition allClosed (s : state) : Prop :=
  Forall (λ c, closed c = true) (inputs s).

(** A schedule that lets forwarder [i] finish, for an input that is closed. *)
Fixpoint shuttle (i : nat) (values : list error) : list action :=
  match values with
  | [] => [Done i]
  | _ :: rest => Receive i :: Deliver i :: shuttle i rest
  end.

Definition finishOne (i : nat) (c : channel) (f : forwarder) : list action :=
  match f with
  | Finished => []
  | Ranging => shuttle i (pending c)
  | Forwarding _ => Deliver i :: shuttle i (pending c)
  end.

Fixpoint finishFrom (i : nat) (cs : list channel) (fs : list forwarder) : list action :=
  match cs, fs with
  | c :: cs', f :: fs' => finishOne i c f ++ finishFrom (S i) cs' fs'
  | _, _ => []
  end.

(** A schedule that drains every input and closes [out], when there is a
    reader for [out] and every input is closed. *)
Definition finish (s : state) : list action :=
  finishFrom 0 (inputs s) (forwarders s) ++ (if waiting s then [CloseOut] else []).

(** What a forwarder still owes the [sync.WaitGroup]. *)
Definition owes (f : forwarder) : Z :=
  match f with
  | Finished => 0
  | _ => 1
  end.

Fixpoint owed (fs : list forwarder) : Z :=
  match fs with
  | [] => 0
  | f :: rest => owes f + owed rest
  end.

(** A forwarder that has finished has left its input closed and empty. *)
Definition settled (f : forwarder) (c : channel) : Prop :=
  f = Finished → c = mkChannel [] true.

(** What every state reached from [mergeErrorChannels] satisfies. *)
Definition invariant (s : state) : Prop :=
  Forall2 settled (forwarders s) (inputs s)
  ∧ wg s = owed (forwarders s)
  ∧ (if waiting s then outCloses s = 0%nat else outCloses s = 1%nat ∧ wg s = 0).

(** Every value that has entered the merge and where it is now. *)
Definition contents (s : state) : list error :=
  out s ++ inFlight s.

(** The run from [s] to [s'] has made forwarder [i], which was in [f], finish:
    its input is closed and empty and the counter is down by what it owed. *)
Definition retires (i : nat) (f : forwarder) (s s' : state) : Prop :=
  inputs s' = <[i := mkChannel [] true]> (inputs s)
  ∧ forwarders s' = <[i := Finished]> (forwarders s)
  ∧ wg s' = wg s - owes f
  ∧ outCloses s' = outCloses s
  ∧ waiting s' = waiting s.

(** Two inputs, one of them holding a value when the merge starts. *)
Definition twoChannels : list channel :=
  [mkChannel [ErrExternal "a"] false; mkChannel [] false].

Definition mergeRun : list action :=
  [Receive 0; Produce 1 (ErrExternal "b"); CloseIn 1; Deliver 0; CloseIn 0;
   Receive 1; Done 0; Deliver 1; Done 1; CloseOut].

End Merge.

(** ** A managed group after section 4.2 of the specification *)

Module SpecGroup.

Inductive groupState : Type := Running | Stopped | Closed.

(** A session records what it was created from. *)
Record session : Type := mkSession {
  session_brokers : list string;
  session_group : string;
  session_config : string;
}.

Record group : Type := mkGroup {
  current_session : option session;
  state : groupState;
  lock_token : option string;
}.

Definition lockConflict : error := ErrExternal "LockConflict".
Definition factoryFailed : error := ErrExternal "FactoryFailed".

(** Modelled from the spec: the managed group implementation is not among the
    sources. Section 4.2, start: valid from [init] or Stopped, stores the
    session and goes to Running; from Running or Closed nothing changes. *)
Definition start (s : session) (g : group) : group :=
  match state g with
  | Stopped => mkGroup (Some s) Running (lock_token g)
  | _ => g
  end.

(** Modelled from the spec: the managed group implementation is not among the
    sources. Section 4.2, stop: valid from Running, closes the current session
    and goes to Stopped. *)
Definition stop (g : group) : option error * group :=
  match state g with
  | Running => (None, mkGroup None Stopped (lock_token g))
  | _ => (Some (ErrExternal "not running"), g)
  end.

(** Modelled from the spec: the managed group implementation is not among the
    sources. Section 4.2, close: valid from any state but Closed, closes the
    current session and goes to Closed. *)
Definition close (g : group) : option error * group :=
  match state g with
  | Closed => (Some (ErrExternal "closed"), g)
  | _ => (None, mkGroup None Closed (lock_token g))
  end.

(** Modelled from the spec: the managed group implementation is not among the
    sources. Section 4.2, lock discipline: with [lockBefore] the token is
    stored when the group is unlocked or holds the same token, and a different
    token is a LockConflict; with [unlockAfter] the token is cleared. The
    bounded wait before a LockConflict takes no part in the result. *)
Definition processLock (lock : option CommandLock) (isLockBefore : bool) (g : group) :
    option error * group :=
  match lock with
  | None => (None, g)
  | Some l =>
      if isLockBefore then
        if LockBefore l then
          match lock_token g with
          | None => (None, mkGroup (current_session g) (state g) (Some (Token l)))
          | Some t =>
              if bool_decide (t = Token l) then (None, g) else (Some lockConflict, g)
          end
        else (None, g)
      else
        if UnlockAfter l then (None, mkGroup (current_session g) (state g) None)
        else (None, g)
  end.

(** Modelled from the spec: the sarama constructor is not among the sources.
    Section 6: [NewConsumerGroup(brokers, groupId, config)] gives a session or
    an error; here it refuses an empty broker list. *)
Definition newSession (brokers : list string) (groupId : string) (cfg : string) :
    error + session :=
  match brokers with
  | [] => inl factoryFailed
  | _ => inr (mkSession brokers groupId cfg)
  end.

#[export] Instance collaborators : Collaborators := {|
  Config := string;
  ConsumerGroup := session;
  Handler := unit;
  managedGroup := group;
  ConsumerGroupAsyncCommandVersion := 1;
  newConsumerGroup := newSession;
  createManagedGroup := λ s, mkGroup (Some s) Running None;
  mg_close := close;
  mg_stop := stop;
  mg_start := start;
  mg_processLock := processLock;
|}.

(** A manager with two running groups: "g1" unlocked, "g2" locked by the
    external token "X". *)
Definition oldSession (groupId : string) : session :=
  mkSession ["old:9092"] groupId "old".

Definition twoGroups : kafkaConsumerGroupManagerImpl :=
  mkManager (mkFactory "old" ["old:9092"])
    (<["g1" := mkGroup (Some (oldSession "g1")) Running None]>
       (<["g2" := mkGroup (Some (oldSession "g2")) Running (Some "X")]> ∅))
    [].

(** The group [StartConsumerGroup] builds for "g2" with the factory of
    [twoGroups]. *)
Definition freshGroup : group :=
  mkGroup (Some (oldSession "g2")) Running None.

(** A stop command for "g1" of the given version, without lock. *)
Definition stopCommand (version : Z) : ConsumerGroupAsyncCommand :=
  mkConsumerGroupAsyncCommand version "g1" None.

(** A manager whose factory has no broker to connect to. *)
Definition noBrokers : kafkaConsumerGroupManagerImpl :=
  mkManager (mkFactory "cfg" []) ∅ [].

End SpecGroup.

(** ** The rest of the manager's interface *)

Section Construction.
Context {world : Collaborators}.

Notation "x <- c ;; k" := (bind c (λ x, k))
  (at level 100, c at next level, right associativity).

(** [NewConsumerGroupManager]: an empty [groupMap] and a factory for the given
    brokers and config. The two handlers it registers with the server are
    [asyncHandler] below. *)
Definition NewConsumerGroupManager (brokers : list string) (cfg : Config) :
    kafkaConsumerGroupManagerImpl :=
  mkManager (mkFactory cfg brokers) ∅ [].

(** The op codes the manager registers a handler for. *)
Inductive opCode : Type :=
  | StopConsumerGroupOpCode
  | StartConsumerGroupOpCode.

(** The callbacks given to [AddAsyncHandler] in [NewConsumerGroupManager]. *)
Definition asyncHandler (op : opCode) (commandMessage : parsedCommand) : M (list reply) :=
  match op with
  | StopConsumerGroupOpCode =>
      processAsyncGroupNotification commandMessage stopConsumerGroup
  | StartConsumerGroupOpCode =>
      processAsyncGroupNotification commandMessage startConsumerGroup
  end.

(** [Errors]: the channel [group.errors()] gives, nil for a group that is not
    in the map. [errors] is that method of the managed group. *)
Definition Errors {Chan : Type} (errors : managedGroup → Chan) (groupId : string) :
    M (option Chan) :=
  group <- getGroup groupId ;;
  match group with
  | None => ret None
  | Some obj => ret (Some (errors obj))
  end.

(** The calls a stop or a start made on the managed group itself. *)
Definition isGroupWork (c : call) : bool :=
  match c with
  | CallStop _ _ | CallStart _ | CallNewConsumerGroup _ _ _ _ => true
  | _ => false
  end.

End Construction.

(** ** Counting the callers of [Close] *)

Module ClosingCount.
Import Closing.

(** The caller has got past [<-c.releasedCh]. *)
Definition released (c : closer) : bool :=
  match c with
  | AtGroupClose | Returned => true
  | AtCancel | AtReceive => false
  end.

Definition hasReturned (c : closer) : bool :=
  match c with
  | Returned => true
  | _ => false
  end.

(** The caller has run [c.cancel()]. *)
Definition hasCancelled (c : closer) : bool :=
  match c with
  | AtCancel => false
  | _ => true
  end.

Fixpoint count (p : closer → bool) (cs : list closer) : nat :=
  match cs with
  | [] => 0
  | c :: rest => (if p c then 1 else 0) + count p rest
  end.

Definition countInvariant (s : state) : Prop :=
  (routine s ≠ Exited → count released (closers s) = 0%nat)
  ∧ (count released (closers s) ≤ 1)%nat
  ∧ groupCloses s = count hasReturned (closers s)
  ∧ (count hasReturned (closers s) ≤ count released (closers s))%nat
  ∧ (cancelled s = false → count hasCancelled (closers s) = 0%nat)
  ∧ (count released (closers s) ≤ count hasCancelled (closers s))%nat
  ∧ (routine s = Exited → count released (closers s) = 1%nat).

(** Two calls of [Close]: the second one stays in its receive. *)
Definition twoCloses : list action :=
  [CallClose; CallClose; Cancel 0; Cancel 1; Leave; CloseErrorCh; Release 1;
   GroupClose 1].

End ClosingCount.

(** ** The order of the merged values *)

Module MergeOrder.
Import Merge.

(** The values on their way to [out], oldest first, when there is a single
    input: the one its forwarder holds, then those pending on the input. *)
Definition queued (s : state) : list error :=
  concat (held <$> forwarders s) ++ concat (pending <$> inputs s).

(** One forwarder and one input, and the forwarder is through only once the
    input is empty. *)
Definition single (s : state) : Prop :=
  ∃ f c, forwarders s = [f] ∧ inputs s = [c].

Definition oneChannel : channel := mkChannel [ErrExternal "a"; ErrExternal "b"] false.

Definition orderedRun : list action :=
  [Receive 0; Produce 0 (ErrExternal "c"); Deliver 0; Receive 0].

End MergeOrder.

(** ** Kafka settings read from a secret and from the channel *)

Module KafkaConfig.
Import Stdlib.Strings.Ascii.

(** The keys of the older, consolidated channel secrets. *)
Definition TlsEnabled : string := "tls.enabled".
Definition TlsCacert : string := "ca.crt".
Definition TlsUsercert : string := "user.crt".
Definition TlsUserkey : string := "user.key".
Definition SaslUser : string := "user".
Definition SaslType : string := "saslType".
Definition SaslPassword : string := "password".

(** [sarama.SASLTypePlaintext], the "PLAIN" default the source speaks of. *)
Definition SASLTypePlaintext : string := "PLAIN".

(** [client.KafkaTlsConfig] *)
Record KafkaTlsConfig : Type := mkTls {
  Cacert : string;
  Usercert : string;
  Userkey : string;
}.

(** [client.KafkaSaslConfig] *)
Record KafkaSaslConfig : Type := mkSasl {
  User : string;
  Password : string;
  SaslTypeOf : string;
}.

(** [client.KafkaAuthConfig]; both fields are pointers. *)
Record KafkaAuthConfig : Type := mkAuth {
  TLS : option KafkaTlsConfig;
  SASL : option KafkaSaslConfig;
}.

(** [corev1.Secret], of which only [Data] is read; [None] is the nil map.
    A [[]byte] value is kept as the string [string(...)] turns it into. *)
Record Secret : Type := mkSecret {
  Data : option (gmap string string);
}.

(** [string(secret.Data[key])]: the empty string for a key that is absent. *)
Definition dataString (data : gmap string string) (key : string) : string :=
  default "" (data !! key).

(** [_, has := secret.Data[key]] *)
Definition hasKey (data : gmap string string) (key : string) : bool :=
  bool_decide (is_Some (data !! key)).

(** [strconv.ParseBool]: the six spellings of each truth value, an error
    ([None]) for anything else. *)
Definition ParseBool (str : string) : option bool :=
  if bool_decide (str ∈ ["1"; "t"; "T"; "TRUE"; "true"; "True"]) then Some true
  else if bool_decide (str ∈ ["0"; "f"; "F"; "FALSE"; "false"; "False"]) then Some false
  else None.

(** [parseTls]; the result is the [kafkaAuthConfig] it updates in place. *)
Definition parseTls (data : gmap string string) (kafkaAuthConfig : KafkaAuthConfig) :
    KafkaAuthConfig :=
  if negb (String.eqb (dataString data TlsCacert) "") then
    (* We have a self-signed TLS cert *)
    mkAuth (Some (mkTls (dataString data TlsCacert) (dataString data TlsUsercert)
                    (dataString data TlsUserkey)))
      (SASL kafkaAuthConfig)
  else
    let tlsEnabled :=
      match ParseBool (dataString data TlsEnabled) with
      | Some b => b
      | None => false
      end in
    if tlsEnabled then mkAuth (Some (mkTls "" "" "")) (SASL kafkaAuthConfig)
    else kafkaAuthConfig.

Section Secrets.
(** [constants.KafkaSecretKeyUsername], [constants.KafkaSecretKeyPassword] and
    [constants.KafkaSecretKeySaslType] *)
Variables KafkaSecretKeyUsername KafkaSecretKeyPassword KafkaSecretKeySaslType : string.

(** [GetAuthConfigFromSecret] *)
Definition GetAuthConfigFromSecret (secret : option Secret) : option KafkaAuthConfig :=
  match secret with
  | None => None
  | Some sec =>
      match Data sec with
      | None => None
      | Some data =>
          let username := dataString data KafkaSecretKeyUsername in
          let saslType := dataString data KafkaSecretKeySaslType in
          let authConfig := mkAuth None None in
          let '(authConfig, username, saslType) :=
            if hasKey data TlsEnabled || hasKey data TlsCacert then
              (parseTls data authConfig, dataString data SaslUser, dataString data SaslType)
            else (authConfig, username, saslType) in
          let saslType :=
            if String.eqb saslType "" then SASLTypePlaintext else saslType in
          Some (mkAuth (TLS authConfig)
                  (Some (mkSasl username (dataString data KafkaSecretKeyPassword) saslType)))
      end
  end.

(** [GetAuthConfigFromKubernetes], given what [secrets.Get] returned: an error
    ([None]) or the secret. *)
Definition GetAuthConfigFromKubernetes (got : option (option Secret)) :
    option KafkaAuthConfig :=
  match got with
  | None => None
  | Some secret => GetAuthConfigFromSecret secret
  end.

End Secrets.

(** The part of [kafkav1beta1.KafkaChannel] and of [EventingKafkaConfig] that
    [NumPartitions] and [ReplicationFactor] read. The numbers are an [int32]
    and an [int16]; they are only compared with zero and handed on. *)
Record KafkaChannel : Type := mkChannelSpec {
  SpecNumPartitions : Z;
  SpecReplicationFactor : Z;
}.

Record EventingKafkaConfig : Type := mkEventingConfig {
  DefaultNumPartitions : Z;
  DefaultReplicationFactor : Z;
}.

(** [NumPartitions]; [configuration] is a pointer. *)
Definition NumPartitions (channel : KafkaChannel)
    (configuration : option EventingKafkaConfig) : Z :=
  let value := SpecNumPartitions channel in
  match configuration with
  | Some c => if bool_decide (value ≤ 0) then DefaultNumPartitions c else value
  | None => value
  end.

(** [ReplicationFactor] *)
Definition ReplicationFactor (channel : KafkaChannel)
    (configuration : option EventingKafkaConfig) : Z :=
  let value := SpecReplicationFactor channel in
  match configuration with
  | Some c => if bool_decide (value ≤ 0) then DefaultReplicationFactor c else value
  | None => value
  end.

(** The sixteen digits of [%x]. *)
Definition hexDigit (d : Z) : Ascii.ascii :=
  match d with
  | 0 => "0" | 1 => "1" | 2 => "2" | 3 => "3" | 4 => "4" | 5 => "5" | 6 => "6"
  | 7 => "7" | 8 => "8" | 9 => "9" | 10 => "a" | 11 => "b" | 12 => "c"
  | 13 => "d" | 14 => "e" | _ => "f"
  end%char.

(** The last [n] hexadecimal digits of [v], most significant first. *)
Fixpoint hexDigits (n : nat) (v : Z) : string :=
  match n with
  | O => ""
  | S n' => hexDigits n' (v / 16) +:+ String (hexDigit (v mod 16)) ""
  end.

(** [fmt.Sprintf("%08x", v)] for a [uint32]: eight digits, zeros in front. *)
Definition Sprintf08x (v : Z) : string :=
  hexDigits 8 (v mod 2 ^ 32).

Definition isHexDigit (a : Ascii.ascii) : bool :=
  bool_decide (a ∈ ["0"; "1"; "2"; "3"; "4"; "5"; "6"; "7"; "8"; "9";
                    "a"; "b"; "c"; "d"; "e"; "f"]%char).

Section CheckSum.
(** [fmt.Sprintf("%v", configMapData)] and [crc32.ChecksumIEEE] of its bytes *)
Variable formatMap : gmap string string → string.
Variable ChecksumIEEE : string → Z.

(** [ConfigmapDataCheckSum]; [None] is the nil map. *)
Definition ConfigmapDataCheckSum (configMapData : option (gmap string string)) : string :=
  match configMapData with
  | None => ""
  | Some data => Sprintf08x (ChecksumIEEE (formatMap data))
  end.

End CheckSum.

(** A secret of the older kind, with a certificate, and one of the newer kind. *)
Definition legacySecret : Secret :=
  mkSecret (Some (<["ca.crt" := "CA"]> (<["user.crt" := "CERT"]> (<["user.key" := "KEY"]>
           (<["user" := "alice"]> (<["password" := "pw"]> ∅)))))).

Definition plainSecret : Secret :=
  mkSecret (Some (<["username" := "bob"]> (<["password" := "pw"]> ∅))).

End KafkaConfig.

(** ** More managers over the managed group of section 4.2 *)

Module SpecCases.
Import SpecGroup.

(** A manager whose only group has been closed behind its back. *)
Definition closedManager : kafkaConsumerGroupManagerImpl :=
  mkManager (mkFactory "old" ["old:9092"]) (<["g1" := mkGroup None Closed None]> ∅) [].

(** A manager with one stopped group and a factory without brokers. *)
Definition stoppedNoBrokers : kafkaConsumerGroupManagerImpl :=
  mkManager (mkFactory "cfg" []) (<["g1" := mkGroup None Stopped None]> ∅) [].

(** The lock of an external controller with the token "T". *)
Definition tokenLock : CommandLock := mkCommandLock "T" true false.

(** A start command of the current version for a group nobody registered. *)
Definition strayCommand : ConsumerGroupAsyncCommand :=
  mkConsumerGroupAsyncCommand 1 "g9" None.

End SpecCases.

(** * Properties of the manager *)

Create HintDb keys.

Section ManagerProperties.
Context {world : Collaborators}.

Implicit Types (m : kafkaConsumerGroupManagerImpl) (groupId : string).
Implicit Types (lock : option CommandLock) (cs : list call).

(** *** The lock helpers and the single-group operations *)

Lemma lockBefore_unfold lock groupId m :
  lockBefore lock groupId m =
  match groups m !! groupId with
  | None => (None, m)
  | Some obj =>
      let r := mg_processLock lock true obj in
      (r.1, mkManager (factory m) (<[groupId := r.2]> (groups m))
              (calls m ++ [CallProcessLock groupId lock true r.1]))
  end.
Proof.
  unfold lockBefore, bind, getGroup, onGroup, setGroup, record, ret, bind.
  destruct (groups m !! groupId) as [obj|]; [|done].
  by destruct (mg_processLock lock true obj).
Qed.

Lemma unlockAfter_unfold lock groupId m :
  unlockAfter lock groupId m =
  match groups m !! groupId with
  | None => (None, m)
  | Some obj =>
      let r := mg_processLock lock false obj in
      (r.1, mkManager (factory m) (<[groupId := r.2]> (groups m))
              (calls m ++ [CallProcessLock groupId lock false r.1]))
  end.
Proof.
  unfold unlockAfter, bind, getGroup, onGroup, setGroup, record, ret, bind.
  destruct (groups m !! groupId) as [obj|]; [|done].
  by destruct (mg_processLock lock false obj).
Qed.

Lemma createConsumerGroup_unfold groupId m :
  createConsumerGroup groupId m =
  let r := newConsumerGroup (addrs (factory m)) groupId (config (factory m)) in
  (r, mkManager (factory m) (groups m)
        (calls m ++ [CallNewConsumerGroup (addrs (factory m)) groupId (config (factory m))
                       (match r with inl e => Some e | inr _ => None end)])).
Proof. done. Qed.

(** C8: on a group id that is not in the map, [lockBefore] and [unlockAfter]
    return nil for every lock and change nothing. *)
Theorem lock_helpers_absent_group lock groupId m :
  groups m !! groupId = None →
  lockBefore lock groupId m = (None, m) ∧ unlockAfter lock groupId m = (None, m).
Proof.
  intros Habsent. rewrite lockBefore_unfold, unlockAfter_unfold.
  by rewrite Habsent.
Qed.

(** C7: on a group id that is not in the map, [CloseConsumerGroup] and
    [stopConsumerGroup] return their not-managed error and change nothing. *)
Theorem close_stop_absent_group lock groupId m :
  groups m !! groupId = None →
  CloseConsumerGroup groupId m = (Some (ErrCloseNotManaged groupId), m)
  ∧ stopConsumerGroup lock groupId m = (Some (ErrStopNotManaged groupId), m)
  ∧ isNotManaged (ErrCloseNotManaged groupId) = true
  ∧ isNotManaged (ErrStopNotManaged groupId) = true.
Proof.
  intros Habsent. split_and!; [| |done..].
  - unfold CloseConsumerGroup, bind, getGroup. by rewrite Habsent.
  - unfold stopConsumerGroup, bind. rewrite lockBefore_unfold, Habsent.
    unfold getGroup. by rewrite Habsent.
Qed.

(** C6: when the factory cannot create the consumer group,
    [StartConsumerGroup] returns the factory's error as it is; the map and the
    factory are as before, [IsManaged] answers as before, and the constructor
    call is the only call made: no managed group is built and no consume loop
    is started. *)
Theorem StartConsumerGroup_factory_failure groupId topics handler m e :
  newConsumerGroup (addrs (factory m)) groupId (config (factory m)) = inl e →
  let r := StartConsumerGroup groupId topics handler m in
  r.1 = Some e
  ∧ groups r.2 = groups m
  ∧ factory r.2 = factory m
  ∧ (IsManaged groupId r.2).1 = (IsManaged groupId m).1
  ∧ calls r.2 = calls m ++ [CallNewConsumerGroup (addrs (factory m)) groupId
                                (config (factory m)) (Some e)].
Proof.
  intros Hfail. unfold StartConsumerGroup, bind.
  rewrite createConsumerGroup_unfold. simpl. by rewrite Hfail.
Qed.

(** C1, as the code has it: [StartConsumerGroup] does not look the group id up.
    Whenever the factory creates the consumer group it returns nil and sets
    the entry of the group id to the managed group built around it, whether
    or not the id had an entry; the other entries stay as they are. *)
Theorem StartConsumerGroup_registers groupId topics handler m group :
  newConsumerGroup (addrs (factory m)) groupId (config (factory m)) = inr group →
  let r := StartConsumerGroup groupId topics handler m in
  r.1 = None
  ∧ groups r.2 = <[groupId := createManagedGroup group]> (groups m)
  ∧ ∀ other, other ≠ groupId → groups r.2 !! other = groups m !! other.
Proof.
  intros Hok. unfold StartConsumerGroup, bind.
  rewrite createConsumerGroup_unfold. simpl. rewrite Hok. simpl.
  split_and!; [done..|]. intros other Hne. by rewrite lookup_insert_ne.
Qed.

(** C5: a message whose payload is not a group command gets no reply and
    leaves the manager alone; a command of another version is answered with
    [NotifyFailed] of the version mismatch and leaves the manager alone; a
    command of the right version runs the group function once and is answered
    with [NotifySuccess] or with [NotifyFailed] of the error it returned. *)
Theorem processAsyncGroupNotification_replies
    (groupFunction : option CommandLock → string → M (option error)) m :
  processAsyncGroupNotification ParsedOther groupFunction m = ([], m)
  ∧ (∀ cmd, Version cmd ≠ ConsumerGroupAsyncCommandVersion →
       processAsyncGroupNotification (ParsedGroupCommand cmd) groupFunction m =
       ([NotifyFailed (ErrVersionMismatch ConsumerGroupAsyncCommandVersion (Version cmd))], m))
  ∧ (∀ cmd, Version cmd = ConsumerGroupAsyncCommandVersion →
       processAsyncGroupNotification (ParsedGroupCommand cmd) groupFunction m =
       let r := groupFunction (Lock cmd) (GroupId cmd) m in
       ([match r.1 with None => NotifySuccess | Some e => NotifyFailed e end], r.2)).
Proof.
  split_and!; [done| |].
  - intros cmd Hne. unfold processAsyncGroupNotification.
    by rewrite bool_decide_true.
  - intros cmd Heq. unfold processAsyncGroupNotification.
    rewrite bool_decide_false by (intros Hne; by apply Hne).
    unfold bind. destruct (groupFunction _ _ m) as [[e|] m']; done.
Qed.

(** *** Reconfigure *)

Lemma sameKeys_refl m : sameKeys m m.
Proof. done. Qed.

Lemma sameKeys_trans m1 m2 m3 : sameKeys m1 m2 → sameKeys m2 m3 → sameKeys m1 m3.
Proof. intros H12 H23 g. etrans; [apply H23|apply H12]. Qed.

Lemma sameKeys_insert m groupId obj f cs' :
  is_Some (groups m !! groupId) →
  sameKeys m (mkManager f (<[groupId := obj]> (groups m)) cs').
Proof.
  intros Hin g. simpl. rewrite lookup_insert_is_Some.
  destruct (decide (groupId = g)) as [->|]; [by split; auto|].
  split; [by intros [?|[_ ?]]|auto].
Qed.

Lemma sameKeys_insert2 m groupId obj obj' f cs' :
  is_Some (groups m !! groupId) →
  sameKeys m (mkManager f (<[groupId := obj]> (<[groupId := obj']> (groups m))) cs').
Proof. intros Hin. rewrite insert_insert_eq. by apply sameKeys_insert. Qed.

Lemma sameKeys_insert3 m groupId obj obj' obj'' f cs' :
  is_Some (groups m !! groupId) →
  sameKeys m (mkManager f
    (<[groupId := obj]> (<[groupId := obj']> (<[groupId := obj'']> (groups m)))) cs').
Proof. intros Hin. rewrite !insert_insert_eq. by apply sameKeys_insert. Qed.

#[local] Hint Resolve sameKeys_insert sameKeys_insert2 sameKeys_insert3 : keys.

Local Ltac segment_done :=
  split_and!; [done|eauto with keys|];
  eexists; split_and!; [by rewrite <-?app_assoc|..]; by repeat constructor.

Lemma stopConsumerGroup_segment groupId m err m' :
  is_Some (groups m !! groupId) →
  stopConsumerGroup (Some stopLock) groupId m = (err, m') →
  factory m' = factory m ∧ sameKeys m m'
  ∧ ∃ cs, calls m' = calls m ++ cs ∧ segment stopLock groupId err cs
      ∧ Forall isStopCall cs.
Proof.
  intros Hin. destruct (Hin) as [obj Hobj]. unfold stopConsumerGroup, bind.
  rewrite lockBefore_unfold, Hobj. simpl.
  destruct (mg_processLock (Some stopLock) true obj) as [[e|] obj1]; simpl.
  { intros [= <- <-]. segment_done. }
  unfold getGroup. simpl. rewrite lookup_insert_eq.
  unfold onGroup, setGroup, record, ret, bind. simpl.
  destruct (mg_stop obj1) as [[e|] obj2]; simpl.
  { intros [= <- <-]. segment_done. }
  rewrite unlockAfter_unfold. simpl. rewrite lookup_insert_eq. simpl.
  destruct (mg_processLock (Some stopLock) false obj2) as [[e|] obj3]; simpl.
  all: intros [= <- <-]; segment_done.
Qed.

Lemma startConsumerGroup_segment groupId m err m' :
  is_Some (groups m !! groupId) →
  startConsumerGroup (Some startLock) groupId m = (err, m') →
  factory m' = factory m ∧ sameKeys m m'
  ∧ ∃ cs, calls m' = calls m ++ cs ∧ segment startLock groupId err cs
      ∧ Forall (isStartCall (addrs (factory m)) (config (factory m))) cs.
Proof.
  intros Hin. destruct (Hin) as [obj Hobj]. unfold startConsumerGroup, bind.
  rewrite lockBefore_unfold, Hobj. simpl.
  destruct (mg_processLock (Some startLock) true obj) as [[e|] obj1]; simpl.
  { intros [= <- <-]. segment_done. }
  unfold getGroup. simpl. rewrite lookup_insert_eq.
  unfold createConsumerGroup, getFactory, record, ret, bind. simpl.
  destruct (newConsumerGroup _ _ _) as [e|group]; simpl.
  { intros [= <- <-]. segment_done. }
  unfold onGroup, setGroup, record, ret, bind. simpl.
  rewrite unlockAfter_unfold. simpl. rewrite lookup_insert_eq. simpl.
  destruct (mg_processLock (Some startLock) false _) as [[e|] obj3]; simpl.
  all: intros [= <- <-]; segment_done.
Qed.

Lemma filter_ext_elem {A} (P Q : A → Prop) `{!∀ x, Decision (P x)} `{!∀ x, Decision (Q x)}
    (l : list A) :
  (∀ x, x ∈ l → (P x ↔ Q x)) → filter P l = filter Q l.
Proof.
  induction l as [|x l IH]; intros Hext; [done|].
  rewrite !filter_cons.
  rewrite IH by (intros y Hy; apply Hext; by right).
  destruct (decide (P x)) as [HP|HP], (decide (Q x)) as [HQ|HQ]; try done.
  - destruct HQ. apply Hext; [by left|done].
  - destruct HP. apply Hext; [by left|done].
Qed.

Lemma succeededFor_app cs1 cs2 groupId :
  succeededFor (cs1 ++ cs2) groupId = succeededFor cs1 groupId && succeededFor cs2 groupId.
Proof. apply forallb_app. Qed.

Lemma succeededFor_other cs groupId :
  Forall (λ c, callGroup c ≠ groupId) cs → succeededFor cs groupId = true.
Proof.
  induction 1 as [|c cs Hc _ IH]; [done|]. simpl.
  by rewrite bool_decide_false, IH.
Qed.

Lemma succeededFor_segment (l : CommandLock) groupId err cs :
  segment l groupId err cs → succeededFor cs groupId = isNil err.
Proof.
  intros (Hg & _ & Herr). revert err Herr.
  induction Hg as [|c cs Hc _ IH]; intros err Herr.
  - by destruct err.
  - simpl in *. rewrite bool_decide_true by done. simpl.
    destruct (callErr c) as [e|] eqn:He; simpl in *.
    + by destruct err.
    + by apply IH.
Qed.

Lemma stopAll_trace keys : ∀ multiErr toRestart m r m',
  NoDup keys → Forall (λ g, is_Some (groups m !! g)) keys →
  stopAll keys multiErr toRestart m = (r, m') →
  factory m' = factory m ∧ sameKeys m m'
  ∧ ∃ cs, calls m' = calls m ++ cs
      ∧ Forall isStopCall cs
      ∧ Forall (λ c, callGroup c ∈ keys) cs
      ∧ attempts stopLock cs = keys
      ∧ r.1 = multiErr ++ omap callErr cs
      ∧ r.2 = toRestart ++ filter (λ g, succeededFor cs g) keys.
Proof.
  induction keys as [|g rest IH]; intros multiErr toRestart m r m' Hnd Hin.
  { intros [= <- <-]. split_and!; [done..|].
    exists []. simpl. by rewrite !app_nil_r. }
  apply NoDup_cons in Hnd as [Hfresh Hnd].
  apply Forall_cons in Hin as [Hg Hin].
  simpl. unfold bind at 1.
  destruct (stopConsumerGroup _ g m) as [err m1] eqn:Hstop.
  apply stopConsumerGroup_segment in Hstop as (Hf1 & Hk1 & cs1 & Hc1 & Hseg & Hs1); [|done].
  assert (Forall (λ g, is_Some (groups m1 !! g)) rest) as Hin1.
  { eapply Forall_impl; [exact Hin|]. intros g' ?. by apply Hk1. }
  assert (Forall (λ c, callGroup c ∈ g :: rest) cs1) as Hmem1.
  { destruct Hseg as (Hgrp & _). eapply Forall_impl; [exact Hgrp|].
    intros c Hc. simpl in Hc. rewrite Hc. by left. }
  pose proof (succeededFor_segment _ _ _ _ Hseg) as Hsucc.
  intros Hrest.
  assert (∃ me tr, stopAll rest me tr m1 = (r, m')
    ∧ me = multiErr ++ omap callErr cs1
    ∧ tr = toRestart ++ filter (λ g', succeededFor cs1 g') [g]) as (me & tr & Hrun & -> & ->).
  { destruct Hseg as (_ & _ & Herr).
    destruct err as [e|]; simpl in *; eexists _, _; (split; [done|]).
    - rewrite Herr. split; [done|].
      rewrite filter_cons_False by (by apply Is_true_false).
      by rewrite filter_nil, app_nil_r.
    - rewrite Herr, app_nil_r. split; [done|].
      rewrite filter_cons_True by (by apply Is_true_true). done. }
  apply IH in Hrun as (Hf2 & Hk2 & cs2 & Hc2 & Hs2 & Hmem2 & Hatt2 & Hr1 & Hr2); [|done..].
  split_and!; [congruence|by eapply sameKeys_trans|].
  exists (cs1 ++ cs2). split_and!.
  - by rewrite Hc2, Hc1, <-app_assoc.
  - by apply Forall_app.
  - apply Forall_app. split; [done|].
    eapply Forall_impl; [exact Hmem2|]. intros c ?. by right.
  - destruct Hseg as (_ & Hatt1 & _).
    unfold attempts in *. by rewrite omap_app, Hatt1, Hatt2.
  - by rewrite Hr1, omap_app, app_assoc.
  - rewrite Hr2, <-app_assoc. f_equal.
    assert (Forall (λ c, callGroup c ≠ g) cs2) as Hne2.
    { eapply Forall_impl; [exact Hmem2|]. intros c Hc Heq. simpl in *. by rewrite Heq in Hc. }
    change (g :: rest) with ([g] ++ rest). rewrite filter_app. f_equal.
    + apply filter_ext_elem. intros x ->%list_elem_of_singleton.
      rewrite succeededFor_app, (succeededFor_other cs2) by done.
      by rewrite andb_true_r.
    + apply filter_ext_elem. intros x Hx. rewrite succeededFor_app.
      rewrite (succeededFor_other cs1); [done|].
      destruct Hseg as (Hgrp & _). eapply Forall_impl; [exact Hgrp|].
      intros c Hc Heq. simpl in *. subst x. by rewrite Hc in Hx.
Qed.

Lemma startAll_trace toRestart : ∀ multiErr m r m',
  Forall (λ g, is_Some (groups m !! g)) toRestart →
  startAll toRestart multiErr m = (r, m') →
  factory m' = factory m ∧ sameKeys m m'
  ∧ ∃ cs, calls m' = calls m ++ cs
      ∧ Forall (isStartCall (addrs (factory m)) (config (factory m))) cs
      ∧ attempts startLock cs = toRestart
      ∧ r = multiErr ++ omap callErr cs.
Proof.
  induction toRestart as [|g rest IH]; intros multiErr m r m' Hin.
  { intros [= <- <-]. split_and!; [done..|].
    exists []. simpl. by rewrite !app_nil_r. }
  apply Forall_cons in Hin as [Hg Hin].
  simpl. unfold bind at 1.
  destruct (startConsumerGroup _ g m) as [err m1] eqn:Hstart.
  apply startConsumerGroup_segment in Hstart
    as (Hf1 & Hk1 & cs1 & Hc1 & (Hgrp & Hatt1 & Herr) & Hs1); [|done].
  assert (Forall (λ g, is_Some (groups m1 !! g)) rest) as Hin1.
  { eapply Forall_impl; [exact Hin|]. intros g' ?. by apply Hk1. }
  intros Hrest.
  assert (startAll rest (multiErr ++ omap callErr cs1) m1 = (r, m')) as Hrun.
  { rewrite Herr. destruct err as [e|]; simpl in *; [done|]. by rewrite app_nil_r. }
  apply IH in Hrun as (Hf2 & Hk2 & cs2 & Hc2 & Hs2 & Hatt2 & Hr); [|done].
  split_and!; [congruence|by eapply sameKeys_trans|].
  exists (cs1 ++ cs2). split_and!.
  - by rewrite Hc2, Hc1, <-app_assoc.
  - apply Forall_app. split; [done|]. by rewrite <-Hf1.
  - unfold attempts in *. by rewrite omap_app, Hatt1, Hatt2.
  - by rewrite Hr, omap_app, app_assoc.
Qed.

Lemma rangeOrder_NoDup m keys : rangeOrder m keys → NoDup keys.
Proof. intros ->. apply NoDup_fst_map_to_list. Qed.

Lemma rangeOrder_elem m keys g : rangeOrder m keys → g ∈ keys ↔ is_Some (groups m !! g).
Proof.
  intros ->. rewrite list_elem_of_fmap. split.
  - intros ([g' obj] & -> & Hin). apply elem_of_map_to_list in Hin. by eexists.
  - intros [obj Hobj]. exists (g, obj). split; [done|]. by apply elem_of_map_to_list.
Qed.

Lemma Reconfigure_trace keys brokers cfg m errs m' :
  rangeOrder m keys →
  Reconfigure keys brokers cfg m = (errs, m') →
  factory m' = mkFactory cfg brokers ∧ sameKeys m m'
  ∧ ∃ stops starts, calls m' = calls m ++ stops ++ starts
      ∧ Forall isStopCall stops
      ∧ attempts stopLock stops = keys
      ∧ Forall (isStartCall brokers cfg) starts
      ∧ attempts startLock starts = filter (λ g, succeededFor stops g) keys
      ∧ errs = omap callErr (stops ++ starts).
Proof.
  intros Hkeys. unfold Reconfigure, bind.
  destruct (stopAll keys [] [] m) as [[multiErr toRestart] m1] eqn:Hstop.
  apply stopAll_trace in Hstop
    as (Hf1 & Hk1 & stops & Hc1 & Hs1 & _ & Hatt1 & Hr1 & Hr2).
  2:{ by eapply rangeOrder_NoDup. }
  2:{ apply Forall_forall. intros g. by apply rangeOrder_elem. }
  simpl in *. subst multiErr toRestart.
  intros Hstart. apply startAll_trace in Hstart
    as (Hf2 & Hk2 & starts & Hc2 & Hs2 & Hatt2 & ->).
  2:{ apply Forall_forall. intros g [_ Hg]%list_elem_of_filter. simpl.
      apply Hk1. by eapply rangeOrder_elem. }
  simpl in *. split_and!; [done| |].
  { intros g. etrans; [apply Hk2|]. apply Hk1. }
  exists stops, starts. split_and!; [|done..|by rewrite omap_app].
  by rewrite Hc2, Hc1, <-app_assoc.
Qed.

Lemma omap_callErr_nil cs :
  omap callErr cs = [] ↔ Forall (λ c, callErr c = None) cs.
Proof.
  induction cs as [|c cs IH]; [by split; [constructor|]|].
  simpl. destruct (callErr c) as [e|] eqn:He.
  - split; [done|]. intros [Hc _]%Forall_cons. congruence.
  - rewrite IH. split; [by constructor|]. by intros [_ ?]%Forall_cons.
Qed.


(** C4: [Reconfigure] goes through every registered group in its stop phase
    and through every group it stopped in its start phase, whatever failed
    before; the combined error it returns holds the error of every call that
    failed, stops first, in the order of the calls, and it is nil exactly when
    no call failed. *)
Theorem Reconfigure_aggregates_errors keys brokers cfg m :
  rangeOrder m keys →
  let r := Reconfigure keys brokers cfg m in
  ∃ stops starts,
    calls r.2 = calls m ++ stops ++ starts
    ∧ Forall isStopCall stops
    ∧ Forall (isStartCall brokers cfg) starts
    ∧ attempts stopLock stops = keys
    ∧ attempts startLock starts = filter (λ g, succeededFor stops g) keys
    ∧ r.1 = omap callErr (stops ++ starts)
    ∧ (r.1 = [] ↔ Forall (λ c, callErr c = None) (stops ++ starts)).
Proof.
  intros Hkeys r. destruct r as [errs m'] eqn:Hr. subst r.
  destruct (Reconfigure_trace _ _ _ _ _ _ Hkeys Hr)
    as (_ & _ & stops & starts & Hc & Hs & Ha & Hs' & Ha' & ->).
  exists stops, starts. split_and!; [done..|]. apply omap_callErr_nil.
Qed.

End ManagerProperties.

(** *** The theorems at work on the managed group of section 4.2 *)

Section Instances.
Import SpecGroup.


Lemma Reconfigure_aggregates_errors_witness :
  ∃ stops starts,
    calls (Reconfigure (world := collaborators)
             ["g2"; "g1"] ["new:9092"] "new" twoGroups).2
      = calls twoGroups ++ stops ++ starts
    ∧ Forall isStopCall stops
    ∧ Forall (isStartCall (world := collaborators) ["new:9092"] "new") starts
    ∧ attempts stopLock stops = ["g2"; "g1"]
    ∧ attempts startLock starts = filter (λ g, succeededFor stops g) ["g2"; "g1"]
    ∧ (Reconfigure (world := collaborators)
         ["g2"; "g1"] ["new:9092"] "new" twoGroups).1
      = omap callErr (stops ++ starts)
    ∧ ((Reconfigure (world := collaborators)
          ["g2"; "g1"] ["new:9092"] "new" twoGroups).1 = []
       ↔ Forall (λ c, callErr c = None) (stops ++ starts)).
Proof.
  apply (Reconfigure_aggregates_errors (world := collaborators)
           ["g2"; "g1"] ["new:9092"] "new" twoGroups).
  unfold rangeOrder. vm_compute. apply perm_swap.
Defined.

(** What [Reconfigure] returns on [twoGroups]: the lock conflict of "g2". *)
Example Reconfigure_twoGroups :
  (Reconfigure (world := collaborators) ["g1"; "g2"] ["new:9092"] "new" twoGroups).1
  = [lockConflict]
  ∧ current_session
      <$> groups (Reconfigure (world := collaborators)
                    ["g1"; "g2"] ["new:9092"] "new" twoGroups).2 !! "g1"
    = Some (Some (mkSession ["new:9092"] "g1" "new"))
  ∧ current_session
      <$> groups (Reconfigure (world := collaborators)
                    ["g1"; "g2"] ["new:9092"] "new" twoGroups).2 !! "g2"
    = Some (Some (oldSession "g2")).
Proof. by vm_compute. Qed.

(** C1, as the claim states it, fails: "g2" is registered, and
    [StartConsumerGroup] on it returns nil and replaces the locked group by a
    fresh one. *)
Lemma StartConsumerGroup_registered_counterexample :
  let r := StartConsumerGroup (world := collaborators) "g2" ["t"] tt twoGroups in
  is_Some (groups twoGroups !! "g2")
  ∧ r.1 = None
  ∧ groups r.2 !! "g2" = Some freshGroup
  ∧ groups r.2 ≠ groups twoGroups
  ∧ ¬ (∃ e, r.1 = Some e ∧ groups r.2 = groups twoGroups).
Proof.
  assert (groups (StartConsumerGroup (world := collaborators) "g2" ["t"] tt twoGroups).2
          ≠ groups twoGroups) as Hne.
  { intros Heq. apply (f_equal (λ g, lock_token <$> g !! "g2")) in Heq.
    vm_compute in Heq. discriminate. }
  split_and!; [by eexists|done|done|exact Hne|].
  intros (e & He & _). discriminate.
Qed.

Lemma StartConsumerGroup_registers_witness :
  let r := StartConsumerGroup (world := collaborators) "g2" ["t"] tt twoGroups in
  r.1 = None
  ∧ groups r.2 = <["g2" := freshGroup]> (groups twoGroups)
  ∧ ∀ other, other ≠ "g2" → groups r.2 !! other = groups twoGroups !! other.
Proof.
  apply (StartConsumerGroup_registers (world := collaborators)
           "g2" ["t"] tt twoGroups (oldSession "g2")).
  reflexivity.
Defined.

Lemma StartConsumerGroup_factory_failure_witness :
  let r := StartConsumerGroup (world := collaborators) "g3" ["t"] tt noBrokers in
  r.1 = Some factoryFailed
  ∧ groups r.2 = groups noBrokers
  ∧ factory r.2 = factory noBrokers
  ∧ (IsManaged "g3" r.2).1 = (IsManaged "g3" noBrokers).1
  ∧ calls r.2 = calls noBrokers
                ++ [CallNewConsumerGroup (world := collaborators) [] "g3" "cfg"
                      (Some factoryFailed)].
Proof.
  apply (StartConsumerGroup_factory_failure (world := collaborators)
           "g3" ["t"] tt noBrokers factoryFailed).
  reflexivity.
Defined.

Lemma close_stop_absent_group_witness :
  CloseConsumerGroup (world := collaborators) "g9" twoGroups
    = (Some (ErrCloseNotManaged "g9"), twoGroups)
  ∧ stopConsumerGroup (world := collaborators) (Some stopLock) "g9" twoGroups
    = (Some (ErrStopNotManaged "g9"), twoGroups)
  ∧ isNotManaged (ErrCloseNotManaged "g9") = true
  ∧ isNotManaged (ErrStopNotManaged "g9") = true.
Proof.
  apply (close_stop_absent_group (world := collaborators)
           (Some stopLock) "g9" twoGroups).
  reflexivity.
Defined.

Lemma lock_helpers_absent_group_witness :
  lockBefore (world := collaborators) (Some stopLock) "g9" twoGroups = (None, twoGroups)
  ∧ unlockAfter (world := collaborators) (Some stopLock) "g9" twoGroups
    = (None, twoGroups).
Proof.
  apply (lock_helpers_absent_group (world := collaborators)
           (Some stopLock) "g9" twoGroups).
  reflexivity.
Defined.

Lemma processAsyncGroupNotification_replies_witness :
  processAsyncGroupNotification (world := collaborators)
    (ParsedGroupCommand (stopCommand 0)) (stopConsumerGroup (world := collaborators))
    twoGroups
  = ([NotifyFailed (ErrVersionMismatch 1 0)], twoGroups)
  ∧ (processAsyncGroupNotification (world := collaborators)
       (ParsedGroupCommand (stopCommand 1)) (stopConsumerGroup (world := collaborators))
       twoGroups).1
    = [NotifySuccess].
Proof.
  destruct (processAsyncGroupNotification_replies (world := collaborators)
              (stopConsumerGroup (world := collaborators)) twoGroups)
    as (_ & Hversion & Hrun).
  split.
  - apply (Hversion (stopCommand 0)). discriminate.
  - rewrite (Hrun (stopCommand 1)) by reflexivity. reflexivity.
Defined.

End Instances.

(** * Properties of the factory *)

Section ConsumeLoop.




Lemma consumeLoop_cons t rest :
  consumeLoop (t :: rest) =
  if returnsClosed t then mkLoopRun [] 1 true
  else if ctxDone t then mkLoopRun (option_list (consumeErr t)) 1 true
  else
    let run := consumeLoop rest in
    mkLoopRun (option_list (consumeErr t) ++ sent run) (S (consumed run)) (left run).
Proof.
  unfold returnsClosed. simpl.
  destruct (consumeErr t) as [e|]; [destruct (isErrClosedConsumerGroup e)|];
    by destruct (ctxDone t).
Qed.





End ConsumeLoop.

Module ClosingProperties.
Import Closing.

Lemma closing_invariant_init : invariant init.
Proof. split; [by intros [?|?]|]. intros _. by split; [constructor|]. Qed.

Lemma closing_invariant_step a s s' : invariant s → step a s = Some s' → invariant s'.
Proof.
  intros [Hch Hheld]. unfold invariant.
  destruct a as [| | | |i|i|i]; simpl.
  - destruct (routine s) eqn:Hr; intros [= <-]. rewrite Hr. by split.
  - destruct (routine s) eqn:Hr; intros [= <-]; simpl. split; [by intros [?|?]|].
    intros _. by apply Hheld.
  - destruct (routine s) eqn:Hr; intros [= <-]; simpl. split; [done|].
    intros _. by apply Hheld.
  - intros [= <-]; simpl. split; [done|]. intros Hr.
    destruct (Hheld Hr) as [Hall Hzero]. split; [|done].
    apply Forall_app. split; [done|]. apply Forall_singleton. by left.
  - destruct (closers s !! i) as [[]|]; intros [= <-]; simpl. split; [done|].
    intros Hr. destruct (Hheld Hr) as [Hall Hzero]. split; [|done].
    apply Forall_insert; [done|]. by right.
  - destruct (routine s) eqn:Hr; try done.
    destruct (closers s !! i) as [[]|]; intros [= <-]; simpl.
    split; [|done]. intros _. apply Hch. by left.
  - destruct (closers s !! i) as [[]|] eqn:Hc; intros [= <-]; simpl. split; [done|].
    intros Hr. destruct (Hheld Hr) as [Hall Hzero].
    eapply Forall_lookup_1 in Hall; [|done]. by destruct Hall.
Qed.

Lemma closing_invariant_exec schedule : ∀ s s',
  invariant s → exec schedule s = Some s' → invariant s'.
Proof.
  induction schedule as [|a rest IH]; intros s s' Hinv; simpl.
  - by intros [= <-].
  - destruct (step a s) as [s1|] eqn:Hstep; [|done].
    apply IH. by eapply closing_invariant_step.
Qed.

Lemma closing_invariant_drained s c i :
  invariant s → closers s !! i = Some c → ¬ held c → drained s.
Proof.
  intros [Hch Hheld] Hc Hpast.
  destruct (decide (routine s = Exited)) as [Hr|Hr].
  - split; [done|]. apply Hch. by right.
  - destruct (Hheld Hr) as [Hall _].
    eapply Forall_lookup_1 in Hall; [|done]. done.
Qed.

(** C9: however the goroutine and the callers of [Close] are scheduled, a
    caller that has returned from [Close], or that has got to the call of the
    embedded [ConsumerGroup.Close], finds the goroutine exited and the error
    channel closed; and the embedded [Close] has been invoked only in such a
    state. *)
Theorem Close_returns_after_drain schedule s :
  exec schedule init = Some s →
  (∀ i, closers s !! i = Some Returned → drained s)
  ∧ (∀ i, closers s !! i = Some AtGroupClose → drained s)
  ∧ ((0 < groupCloses s)%nat → drained s).
Proof.
  intros Hexec.
  assert (invariant s) as Hinv by (by eapply closing_invariant_exec; [apply closing_invariant_init|]).
  split_and!.
  - intros i Hi. eapply closing_invariant_drained; [done..|]. by intros [?|?].
  - intros i Hi. eapply closing_invariant_drained; [done..|]. by intros [?|?].
  - intros Hpos. destruct Hinv as [Hch Hheld].
    destruct (decide (routine s = Exited)) as [Hr|Hr].
    + split; [done|]. apply Hch. by right.
    + destruct (Hheld Hr) as [_ Hzero]. lia.
Qed.

Lemma Close_returns_after_drain_witness :
  ∃ s, exec closeRun init = Some s
       ∧ closers s !! 0%nat = Some Returned
       ∧ drained s.
Proof.
  eexists. split; [reflexivity|]. split; [reflexivity|].
  eapply (proj1 (Close_returns_after_drain closeRun _ eq_refl) 0%nat). reflexivity.
Defined.

End ClosingProperties.

Module MergeProperties.
Import Merge.

Implicit Types (s : state) (fs : list forwarder) (cs : list channel).

(** *** Lists updated in one place *)

Lemma concat_fmap_lookup {A B} (f : A → list B) (l : list A) i x :
  l !! i = Some x →
  ∃ rest, concat (f <$> l) ≡ₚ f x ++ rest
          ∧ ∀ y, concat (f <$> <[i:=y]> l) ≡ₚ f y ++ rest.
Proof.
  revert i. induction l as [|a l IH]; intros [|i] Hi; try done; simpl in *.
  - injection Hi as ->. by exists (concat (f <$> l)).
  - destruct (IH i Hi) as (rest & Hl & Hins).
    exists (f a ++ rest). split.
    + rewrite Hl. solve_Permutation.
    + intros y. rewrite Hins. solve_Permutation.
Qed.

Lemma owed_insert fs i f f' :
  fs !! i = Some f → owed (<[i:=f']> fs) = owed fs - owes f + owes f'.
Proof.
  revert i. induction fs as [|a fs IH]; intros [|i] Hi; try done; simpl in *.
  - injection Hi as ->. lia.
  - rewrite (IH i Hi). lia.
Qed.

Lemma owed_nonneg fs : 0 ≤ owed fs.
Proof. induction fs as [|[] fs IH]; simpl; lia. Qed.

Lemma owed_zero fs : owed fs = 0 → Forall (λ f, f = Finished) fs.
Proof.
  induction fs as [|f fs IH]; [by constructor|]. simpl.
  pose proof (owed_nonneg fs). intros Hsum. constructor.
  - destruct f; simpl in *; [lia..|done].
  - apply IH. destruct f; simpl in *; lia.
Qed.

Lemma owed_replicate n : owed (replicate n Ranging) = Z.of_nat n.
Proof. induction n as [|n IH]; simpl; [done|]. rewrite IH. lia. Qed.

(** *** The invariant *)

Lemma merge_invariant_init channels : invariant (mergeErrorChannels channels).
Proof.
  split_and!; simpl; [|by rewrite owed_replicate|done].
  induction channels as [|c cs IH]; simpl; by constructor.
Qed.

Lemma settled_open fs cs i f c :
  Forall2 settled fs cs → fs !! i = Some f → cs !! i = Some c →
  closed c = false → f ≠ Finished.
Proof.
  intros Hall Hf Hc Hopen ->.
  eapply Forall2_lookup_lr in Hall; [|done..].
  rewrite (Hall eq_refl) in Hopen. done.
Qed.

Lemma settled_insert_r fs cs i c c' :
  Forall2 settled fs cs → cs !! i = Some c → closed c = false →
  Forall2 settled fs (<[i:=c']> cs).
Proof.
  intros Hall Hc Hopen.
  destruct (fs !! i) as [f|] eqn:Hf.
  - rewrite <-(list_insert_id fs i f) by done.
    apply Forall2_insert; [done|]. intros ->.
    by destruct (settled_open _ _ _ _ _ Hall Hf Hc Hopen).
  - apply lookup_ge_None in Hf. apply Forall2_length in Hall.
    apply lookup_lt_Some in Hc. lia.
Qed.

Lemma settled_insert_l fs cs i f' :
  Forall2 settled fs cs → f' ≠ Finished → Forall2 settled (<[i:=f']> fs) cs.
Proof.
  intros Hall Hf'.
  destruct (cs !! i) as [c|] eqn:Hc.
  - rewrite <-(list_insert_id cs i c) by done.
    apply Forall2_insert; [done|]. by intros ?.
  - apply lookup_ge_None in Hc. pose proof (Forall2_length _ _ _ Hall).
    rewrite list_insert_ge by lia. done.
Qed.

Lemma merge_invariant_step a s s' : invariant s → step a s = Some s' → invariant s'.
Proof.
  intros (Hset & Hwg & Hout). unfold invariant.
  destruct a as [i v|i|i|i|i|]; simpl.
  - destruct (inputs s !! i) as [c|] eqn:Hc; [|done].
    destruct (closed c) eqn:Hopen; [done|]. intros [= <-]; simpl.
    split_and!; [|done..]. by eapply settled_insert_r.
  - destruct (inputs s !! i) as [c|] eqn:Hc; [|done].
    destruct (closed c) eqn:Hopen; [done|]. intros [= <-]; simpl.
    split_and!; [|done..]. by eapply settled_insert_r.
  - destruct (inputs s !! i) as [[[|v rest] cl]|] eqn:Hc; try done.
    destruct (forwarders s !! i) as [[]|] eqn:Hf; try done.
    intros [= <-]; simpl. split_and!; [| |done].
    + apply Forall2_insert; [done|]. by intros ?.
    + rewrite (owed_insert _ _ _ _ Hf). simpl. lia.
  - destruct (forwarders s !! i) as [[]|] eqn:Hf; try done.
    case_bool_decide; [|done]. intros [= <-]; simpl. split_and!; [| |done].
    + by apply settled_insert_l.
    + rewrite (owed_insert _ _ _ _ Hf). simpl. lia.
  - destruct (inputs s !! i) as [[[|v rest] []]|] eqn:Hc; try done.
    destruct (forwarders s !! i) as [[]|] eqn:Hf; try done.
    intros [= <-]; simpl. split_and!.
    + rewrite <-(list_insert_id (inputs s) i (mkChannel [] true)) by done.
      apply Forall2_insert; [done|]. by intros _.
    + rewrite (owed_insert _ _ _ _ Hf). simpl. lia.
    + destruct (waiting s); [exact Hout|]. destruct Hout as [_ Hzero].
      pose proof (owed_zero (forwarders s)) as Hfin.
      rewrite <-Hwg in Hfin. specialize (Hfin Hzero).
      eapply Forall_lookup_1 in Hfin; [|done]. done.
  - destruct (waiting s) eqn:Hw; [|done]. simpl.
    case_bool_decide; [|done]. intros [= <-]; simpl.
    split_and!; [done..| |done]. by rewrite Hout.
Qed.

Lemma merge_invariant_exec schedule : ∀ s s',
  invariant s → exec schedule s = Some s' → invariant s'.
Proof.
  induction schedule as [|a rest IH]; intros s s' Hinv; simpl.
  - by intros [= <-].
  - destruct (step a s) as [s1|] eqn:Hstep; [|done].
    apply IH. by eapply merge_invariant_step.
Qed.

(** *** Nothing is lost and nothing is made up *)

Lemma contents_step a s s' :
  step a s = Some s' → contents s ++ produced [a] ≡ₚ contents s'.
Proof.
  unfold contents, inFlight, produced.
  destruct a as [i v|i|i|i|i|]; simpl.
  - destruct (inputs s !! i) as [c|] eqn:Hc; [|done].
    destruct (closed c); [done|]. intros [= <-]; simpl.
    destruct (concat_fmap_lookup pending _ _ _ Hc) as (rest & -> & ->). simpl.
    solve_Permutation.
  - destruct (inputs s !! i) as [c|] eqn:Hc; [|done].
    destruct (closed c); [done|]. intros [= <-]; simpl.
    destruct (concat_fmap_lookup pending _ _ _ Hc) as (rest & -> & ->). simpl.
    solve_Permutation.
  - destruct (inputs s !! i) as [[[|v rest] cl]|] eqn:Hc; try done.
    destruct (forwarders s !! i) as [[]|] eqn:Hf; try done.
    intros [= <-]; simpl.
    destruct (concat_fmap_lookup pending _ _ _ Hc) as (rest1 & -> & ->).
    destruct (concat_fmap_lookup held _ _ _ Hf) as (rest2 & -> & ->). simpl.
    solve_Permutation.
  - destruct (forwarders s !! i) as [[]|] eqn:Hf; try done.
    case_bool_decide; [|done]. intros [= <-]; simpl.
    destruct (concat_fmap_lookup held _ _ _ Hf) as (rest2 & -> & ->). simpl.
    solve_Permutation.
  - destruct (inputs s !! i) as [[[|v rest] []]|] eqn:Hc; try done.
    destruct (forwarders s !! i) as [[]|] eqn:Hf; try done.
    intros [= <-]; simpl.
    destruct (concat_fmap_lookup held _ _ _ Hf) as (rest2 & -> & ->). simpl.
    solve_Permutation.
  - destruct (waiting s && bool_decide (wg s = 0)); [|done].
    intros [= <-]; simpl. solve_Permutation.
Qed.

Lemma produced_cons a schedule : produced (a :: schedule) = produced [a] ++ produced schedule.
Proof. by destruct a. Qed.

Lemma contents_exec schedule : ∀ s s',
  exec schedule s = Some s' → contents s ++ produced schedule ≡ₚ contents s'.
Proof.
  induction schedule as [|a rest IH]; intros s s'; cbn [exec].
  - intros [= <-]. unfold produced. simpl. by rewrite app_nil_r.
  - destruct (step a s) as [s1|] eqn:Hstep; [|done]. intros Hexec.
    rewrite <-(IH _ _ Hexec), <-(contents_step _ _ _ Hstep).
    by rewrite produced_cons, app_assoc.
Qed.

(** *** When every input is closed the merge can finish *)

Lemma exec_app l1 l2 s :
  exec (l1 ++ l2) s = match exec l1 s with Some s1 => exec l2 s1 | None => None end.
Proof.
  revert s. induction l1 as [|a l1 IH]; intros s; simpl; [done|].
  by destruct (step a s).
Qed.

Lemma shuttle_exec i vs : ∀ s,
  inputs s !! i = Some (mkChannel vs true) →
  forwarders s !! i = Some Ranging →
  outCloses s = 0%nat →
  ∃ s', exec (shuttle i vs) s = Some s' ∧ retires i Ranging s s'.
Proof.
  induction vs as [|v vs IH]; intros s Hc Hf Hopen.
  - simpl. rewrite Hc, Hf. eexists. split; [done|].
    split_and!; simpl; [|done..]. by rewrite list_insert_id.
  - cbn [shuttle exec]. unfold step at 1. rewrite Hc, Hf.
    cbn [exec]. unfold step at 1. cbn [forwarders].
    pose proof (lookup_lt_Some _ _ _ Hc) as Hlen1.
    pose proof (lookup_lt_Some _ _ _ Hf) as Hlen2.
    rewrite list_lookup_insert_eq by done.
    cbn [outCloses]. rewrite bool_decide_true by done.
    edestruct IH as (s' & Hexec & Hi & Hfw & Hwg & Hoc & Hw); last first.
    { exists s'. split; [exact Hexec|].
      simpl in *. split_and!; [|  |done..].
      - by rewrite Hi, list_insert_insert_eq.
      - by rewrite Hfw, !list_insert_insert_eq. }
    + done.
    + simpl. rewrite list_lookup_insert_eq; [done|]. by rewrite length_insert.
    + simpl. by rewrite list_lookup_insert_eq.
Qed.

Lemma finishOne_exec i c f s :
  inputs s !! i = Some c → forwarders s !! i = Some f →
  closed c = true → settled f c → outCloses s = 0%nat →
  ∃ s', exec (finishOne i c f) s = Some s' ∧ retires i f s s'.
Proof.
  intros Hc Hf Hcl Hset Hopen. destruct c as [vs cl]. simpl in Hcl. subst cl.
  destruct f as [|v|]; simpl.
  - by apply shuttle_exec.
  - rewrite Hf. rewrite bool_decide_true by done.
    pose proof (lookup_lt_Some _ _ _ Hf) as Hlen.
    edestruct (shuttle_exec i vs) as (s' & Hexec & Hi & Hfw & Hwg & Hoc & Hw); last first.
    { exists s'. split; [exact Hexec|].
      simpl in *. split_and!; [done| |done..].
      by rewrite Hfw, list_insert_insert_eq. }
    + done.
    + simpl. by rewrite list_lookup_insert_eq.
    + done.
  - exists s. split; [done|]. injection (Hset eq_refl) as ->.
    split_and!; simpl; [| |lia|done..]; by rewrite list_insert_id.
Qed.

Lemma drop_cons_lookup {A} (l : list A) i x rest :
  drop i l = x :: rest → l !! i = Some x ∧ drop (S i) l = rest.
Proof.
  intros Hdrop. assert (l !! i = Some x) as Hi.
  { rewrite <-(Nat.add_0_r i), <-lookup_drop. by rewrite Hdrop. }
  split; [done|]. rewrite (drop_S _ _ _ Hi) in Hdrop. by injection Hdrop.
Qed.

Lemma finishFrom_exec cs : ∀ fs i s,
  drop i (inputs s) = cs → drop i (forwarders s) = fs →
  Forall (λ c, closed c = true) cs → Forall2 settled fs cs →
  outCloses s = 0%nat →
  ∃ s', exec (finishFrom i cs fs) s = Some s'
        ∧ wg s' = wg s - owed fs
        ∧ outCloses s' = outCloses s
        ∧ waiting s' = waiting s.
Proof.
  induction cs as [|c cs IH]; intros fs i s Hcs Hfs Hcl Hset Hopen.
  { apply Forall2_nil_inv_r in Hset as ->. exists s. simpl.
    split_and!; [done|lia|done..]. }
  apply Forall2_cons_inv_r in Hset as (f & fs' & Hfc & Hset & ->).
  apply Forall_cons in Hcl as [Hc Hcl].
  apply drop_cons_lookup in Hcs as [Hci Hcs].
  apply drop_cons_lookup in Hfs as [Hfi Hfs].
  cbn [finishFrom]. rewrite exec_app.
  destruct (finishOne_exec i c f s) as (s1 & -> & Hi & Hfw & Hwg & Hoc & Hw); [done..|].
  destruct (IH fs' (S i) s1) as (s' & Hexec & Hwg' & Hoc' & Hw').
  - rewrite Hi, drop_insert_lt by lia. done.
  - rewrite Hfw, drop_insert_lt by lia. done.
  - done.
  - done.
  - congruence.
  - exists s'. split; [done|]. simpl. split_and!; [lia|congruence..].
Qed.

Lemma finishFrom_finished cs : ∀ fs i,
  Forall (λ f, f = Finished) fs → finishFrom i cs fs = [].
Proof.
  induction cs as [|c cs IH]; intros [|f fs] i Hfin; try done.
  apply Forall_cons in Hfin as [-> Hfin]. simpl. by apply IH.
Qed.

Lemma produced_app l1 l2 : produced (l1 ++ l2) = produced l1 ++ produced l2.
Proof. apply omap_app. Qed.

Lemma produced_shuttle i vs : produced (shuttle i vs) = [].
Proof. induction vs as [|v vs IH]; [done|]. exact IH. Qed.

Lemma produced_finishFrom cs : ∀ fs i, produced (finishFrom i cs fs) = [].
Proof.
  induction cs as [|c cs IH]; intros [|f fs] i; try done.
  cbn [finishFrom]. rewrite produced_app, IH, app_nil_r.
  destruct f; simpl; [apply produced_shuttle| |done].
  apply produced_shuttle.
Qed.

Lemma produced_finish s : produced (finish s) = [].
Proof.
  unfold finish. rewrite produced_app, produced_finishFrom.
  by destruct (waiting s).
Qed.

Lemma finish_exec s :
  invariant s → allClosed s →
  ∃ s', exec (finish s) s = Some s' ∧ outCloses s' = 1%nat.
Proof.
  intros (Hset & Hwg & Hout) Hcl. unfold finish.
  destruct (waiting s) eqn:Hw.
  - destruct (finishFrom_exec (inputs s) (forwarders s) 0%nat s)
      as (s1 & Hexec & Hwg1 & Hoc1 & Hw1); [done..|].
    rewrite exec_app, Hexec. simpl.
    rewrite Hw1, Hw. rewrite bool_decide_true by lia. simpl.
    eexists. split; [done|]. simpl. lia.
  - destruct Hout as [Hone Hzero].
    rewrite finishFrom_finished.
    + exists s. by split.
    + apply owed_zero. by rewrite <-Hwg.
Qed.

(** *** The state once [out] is closed *)

Lemma held_replicate n : concat (held <$> replicate n Ranging) = [].
Proof. induction n as [|n IH]; [done|]. exact IH. Qed.

Lemma settled_finished fs cs :
  Forall2 settled fs cs → Forall (λ f, f = Finished) fs →
  Forall (λ c, closed c = true) cs
  ∧ concat (pending <$> cs) ++ concat (held <$> fs) = [].
Proof.
  induction 1 as [|f c fs cs Hfc _ IH]; [done|].
  intros [-> Hfin]%Forall_cons. destruct (IH Hfin) as [Hcl Hempty].
  rewrite (Hfc eq_refl). split; [by constructor|]. exact Hempty.
Qed.

Lemma closed_state s :
  invariant s → outCloses s = 1%nat → allClosed s ∧ inFlight s = [].
Proof.
  intros (Hset & Hwg & Hout) Hone.
  destruct (waiting s); [lia|]. destruct Hout as [_ Hzero].
  apply settled_finished; [done|]. apply owed_zero. by rewrite <-Hwg.
Qed.

(** C10: however the owners of the inputs, the forwarders and the closing
    goroutine are scheduled, the values handed to the reader of [out] together
    with those still on their way are exactly the values sent on the inputs;
    [close(out)] runs at most once; once it has run every input is closed and
    empty and the reader has received every value sent on any input; and when
    every input is closed the goroutines can run on until [out] is closed,
    the reader having then received every value. *)
Theorem mergeErrorChannels_merges channels schedule s :
  exec schedule (mergeErrorChannels channels) = Some s →
  concat (pending <$> channels) ++ produced schedule ≡ₚ out s ++ inFlight s
  ∧ (outCloses s ≤ 1)%nat
  ∧ (outCloses s = 1%nat →
       allClosed s ∧ inFlight s = []
       ∧ out s ≡ₚ concat (pending <$> channels) ++ produced schedule)
  ∧ (allClosed s →
       ∃ s', exec (finish s) s = Some s' ∧ outCloses s' = 1%nat
             ∧ out s' ≡ₚ concat (pending <$> channels) ++ produced schedule).
Proof.
  assert (∀ sched s0, exec sched (mergeErrorChannels channels) = Some s0 →
    invariant s0
    ∧ concat (pending <$> channels) ++ produced sched ≡ₚ out s0 ++ inFlight s0) as Hreach.
  { intros sched s0 Hexec. split.
    - by eapply merge_invariant_exec; [apply merge_invariant_init|].
    - rewrite <-(contents_exec _ _ _ Hexec). unfold contents, inFlight. simpl.
      by rewrite held_replicate, app_nil_r. }
  assert (∀ sched s0, exec sched (mergeErrorChannels channels) = Some s0 →
    outCloses s0 = 1%nat →
    allClosed s0 ∧ inFlight s0 = []
    ∧ out s0 ≡ₚ concat (pending <$> channels) ++ produced sched) as Hclosed.
  { intros sched s0 Hexec Hone. destruct (Hreach _ _ Hexec) as [Hinv Hcont].
    destruct (closed_state _ Hinv Hone) as [Hcl Hempty].
    split_and!; [done..|]. by rewrite Hcont, Hempty, app_nil_r. }
  intros Hexec. destruct (Hreach _ _ Hexec) as [Hinv Hcont].
  split_and!; [done| |by apply Hclosed|].
  - destruct Hinv as (_ & _ & Hout). destruct (waiting s); lia.
  - intros Hcl. destruct (finish_exec s Hinv Hcl) as (s' & Hfin & Hone).
    exists s'. split_and!; [done..|].
    assert (exec (schedule ++ finish s) (mergeErrorChannels channels) = Some s') as Hall.
    { by rewrite exec_app, Hexec. }
    destruct (Hclosed _ _ Hall Hone) as (_ & _ & Hperm).
    by rewrite Hperm, produced_app, produced_finish, app_nil_r.
Qed.

Lemma mergeErrorChannels_merges_witness :
  ∃ s, exec mergeRun (mergeErrorChannels twoChannels) = Some s
       ∧ outCloses s = 1%nat
       ∧ out s ≡ₚ concat (pending <$> twoChannels) ++ produced mergeRun.
Proof.
  assert (exec mergeRun (mergeErrorChannels twoChannels)
          = Some (mkState [mkChannel [] true; mkChannel [] true] [Finished; Finished] 0
                    [ErrExternal "a"; ErrExternal "b"] 1 false)) as Hrun
    by (vm_compute; reflexivity).
  eexists. split; [exact Hrun|]. split; [reflexivity|].
  destruct (mergeErrorChannels_merges twoChannels mergeRun _ Hrun)
    as (_ & _ & Hclosed & _).
  apply Hclosed. reflexivity.
Defined.

End MergeProperties.

(** * More properties of the manager *)

Section ManagerMore.
Context {world : Collaborators}.

Implicit Types (m : kafkaConsumerGroupManagerImpl) (groupId : string).
Implicit Types (lock : option CommandLock) (cs : list call).

Lemma CloseConsumerGroup_unfold groupId m :
  CloseConsumerGroup groupId m =
  match groups m !! groupId with
  | None => (Some (ErrCloseNotManaged groupId), m)
  | Some obj =>
      let r := mg_close obj in
      match r.1 with
      | Some e =>
          (Some e, mkManager (factory m) (<[groupId := r.2]> (groups m))
                     (calls m ++ [CallClose groupId (Some e)]))
      | None =>
          (None, mkManager (factory m) (delete groupId (groups m))
                   (calls m ++ [CallClose groupId None]))
      end
  end.
Proof.
  unfold CloseConsumerGroup, bind, getGroup, onGroup, setGroup, record, removeGroup, ret, bind.
  destruct (groups m !! groupId) as [obj|]; [|done].
  destruct (mg_close obj) as [[e|] obj']; simpl; [done|].
  by rewrite delete_insert_eq.
Qed.

(** X1: closing a managed group whose [close] succeeds returns nil, removes
    exactly that id from the map, so that [IsManaged] answers false for it,
    and makes the one [close] call. *)
Theorem CloseConsumerGroup_removes groupId m obj :
  groups m !! groupId = Some obj →
  (mg_close obj).1 = None →
  let r := CloseConsumerGroup groupId m in
  r.1 = None
  ∧ groups r.2 = delete groupId (groups m)
  ∧ (IsManaged groupId r.2).1 = false
  ∧ (∀ other, other ≠ groupId → groups r.2 !! other = groups m !! other)
  ∧ calls r.2 = calls m ++ [CallClose groupId None].
Proof.
  intros Hobj Hok. rewrite CloseConsumerGroup_unfold, Hobj. simpl. rewrite Hok. simpl.
  split_and!; [done..| | |done].
  - unfold IsManaged, bind, getGroup, ret. simpl. rewrite lookup_delete_eq.
    apply bool_decide_eq_false. by intros [? ?].
  - intros other Hne. by rewrite lookup_delete_ne.
Qed.

(** X2: when the group's [close] fails, [CloseConsumerGroup] returns that error
    and the group stays in the map: [IsManaged] still answers true and no id
    is added or removed. *)
Theorem CloseConsumerGroup_failure_keeps groupId m obj e :
  groups m !! groupId = Some obj →
  (mg_close obj).1 = Some e →
  let r := CloseConsumerGroup groupId m in
  r.1 = Some e
  ∧ groups r.2 !! groupId = Some (mg_close obj).2
  ∧ (IsManaged groupId r.2).1 = true
  ∧ sameKeys m r.2.
Proof.
  intros Hobj Hfail. rewrite CloseConsumerGroup_unfold, Hobj. simpl. rewrite Hfail. simpl.
  split_and!; [done| | |].
  - by rewrite lookup_insert_eq.
  - unfold IsManaged, bind, getGroup, ret. simpl. rewrite lookup_insert_eq.
    by apply bool_decide_eq_true.
  - by apply sameKeys_insert.
Qed.

(** X3: starting a group under an id that is not in the map and closing it
    again, the factory and the [close] succeeding, gives back the map and the
    factory the manager had before. *)
Theorem Start_Close_round_trip groupId topics handler m group :
  groups m !! groupId = None →
  newConsumerGroup (addrs (factory m)) groupId (config (factory m)) = inr group →
  (mg_close (createManagedGroup group)).1 = None →
  let started := StartConsumerGroup groupId topics handler m in
  let closed := CloseConsumerGroup groupId started.2 in
  started.1 = None ∧ (IsManaged groupId started.2).1 = true
  ∧ closed.1 = None ∧ groups closed.2 = groups m ∧ factory closed.2 = factory m.
Proof.
  intros Habsent Hok Hclose.
  destruct (StartConsumerGroup_registers groupId topics handler m group Hok)
    as (Hnil & Hgroups & _).
  assert (groups (StartConsumerGroup groupId topics handler m).2 !! groupId
          = Some (createManagedGroup group)) as Hin.
  { by rewrite Hgroups, lookup_insert_eq. }
  destruct (CloseConsumerGroup_removes groupId _ _ Hin Hclose)
    as (Hnil' & Hgroups' & _).
  simpl. split_and!; [done| |done| |].
  - unfold IsManaged, bind, getGroup, ret. simpl. rewrite Hin.
    by apply bool_decide_eq_true.
  - rewrite Hgroups', Hgroups, delete_insert_eq. by apply delete_id.
  - rewrite CloseConsumerGroup_unfold, Hin. simpl. rewrite Hclose. simpl.
    unfold StartConsumerGroup, bind. rewrite createConsumerGroup_unfold. simpl.
    by rewrite Hok.
Qed.

(** X4: [startConsumerGroup] on an id that is not in the map returns its
    not-managed error and changes nothing; the factory is not called. *)
Theorem startConsumerGroup_absent_group lock groupId m :
  groups m !! groupId = None →
  startConsumerGroup lock groupId m = (Some (ErrStartNotManaged groupId), m)
  ∧ isNotManaged (ErrStartNotManaged groupId) = true.
Proof.
  intros Habsent. split; [|done].
  unfold startConsumerGroup, bind. rewrite lockBefore_unfold, Habsent.
  unfold getGroup. by rewrite Habsent.
Qed.

(** X5: when [processLock] refuses the lock, [stopConsumerGroup] and
    [startConsumerGroup] both return that error right away: the lock attempt
    is the only call made, so the group is neither stopped nor restarted and
    no consumer group is created. *)
Theorem lock_failure_stops_operation lock groupId m obj e :
  groups m !! groupId = Some obj →
  (mg_processLock lock true obj).1 = Some e →
  let locked :=
    mkManager (factory m) (<[groupId := (mg_processLock lock true obj).2]> (groups m))
      (calls m ++ [CallProcessLock groupId lock true (Some e)]) in
  stopConsumerGroup lock groupId m = (Some e, locked)
  ∧ startConsumerGroup lock groupId m = (Some e, locked).
Proof.
  intros Hobj Hfail.
  unfold stopConsumerGroup, startConsumerGroup, bind.
  rewrite lockBefore_unfold, Hobj. simpl. by rewrite Hfail.
Qed.

(** X6: when the lock is granted and the factory then fails,
    [startConsumerGroup] returns the factory's error after the lock call and
    the constructor call only: the group is not started and [unlockAfter] is
    not run, so a lock taken by [lockBefore] stays. *)
Theorem startConsumerGroup_factory_failure lock groupId m obj e :
  groups m !! groupId = Some obj →
  (mg_processLock lock true obj).1 = None →
  newConsumerGroup (addrs (factory m)) groupId (config (factory m)) = inl e →
  startConsumerGroup lock groupId m =
  (Some e,
   mkManager (factory m) (<[groupId := (mg_processLock lock true obj).2]> (groups m))
     (calls m ++ [CallProcessLock groupId lock true None;
                  CallNewConsumerGroup (addrs (factory m)) groupId (config (factory m))
                    (Some e)])).
Proof.
  intros Hobj Hlock Hfail.
  unfold startConsumerGroup, bind.
  rewrite lockBefore_unfold, Hobj. simpl. rewrite Hlock.
  unfold getGroup. simpl. rewrite lookup_insert_eq.
  unfold createConsumerGroup, getFactory, record, ret, bind. simpl.
  rewrite Hfail. simpl. by rewrite <-app_assoc.
Qed.

Lemma stopConsumerGroup_keys lock groupId m :
  let r := stopConsumerGroup lock groupId m in
  sameKeys m r.2 ∧ factory r.2 = factory m.
Proof.
  unfold stopConsumerGroup, bind. rewrite lockBefore_unfold.
  destruct (groups m !! groupId) as [obj|] eqn:Hobj; simpl.
  2:{ unfold getGroup. by rewrite Hobj. }
  assert (is_Some (groups m !! groupId)) as Hin by done.
  destruct (mg_processLock lock true obj) as [[e|] obj1]; simpl.
  { split; [by apply sameKeys_insert|done]. }
  unfold getGroup. simpl. rewrite lookup_insert_eq.
  unfold onGroup, setGroup, record, ret, bind. simpl.
  destruct (mg_stop obj1) as [[e|] obj2]; simpl.
  { split; [by apply sameKeys_insert2|done]. }
  rewrite unlockAfter_unfold. simpl. rewrite lookup_insert_eq. simpl.
  destruct (mg_processLock lock false obj2) as [[e|] obj3]; simpl.
  all: split; [by apply sameKeys_insert3|done].
Qed.

Lemma startConsumerGroup_keys lock groupId m :
  let r := startConsumerGroup lock groupId m in
  sameKeys m r.2 ∧ factory r.2 = factory m.
Proof.
  unfold startConsumerGroup, bind. rewrite lockBefore_unfold.
  destruct (groups m !! groupId) as [obj|] eqn:Hobj; simpl.
  2:{ unfold getGroup. by rewrite Hobj. }
  assert (is_Some (groups m !! groupId)) as Hin by done.
  destruct (mg_processLock lock true obj) as [[e|] obj1]; simpl.
  { split; [by apply sameKeys_insert|done]. }
  unfold getGroup. simpl. rewrite lookup_insert_eq.
  unfold createConsumerGroup, getFactory, record, ret, bind. simpl.
  destruct (newConsumerGroup _ _ _) as [e|group]; simpl.
  { split; [by apply sameKeys_insert|done]. }
  unfold onGroup, setGroup, record, ret, bind. simpl.
  rewrite unlockAfter_unfold. simpl. rewrite lookup_insert_eq. simpl.
  destruct (mg_processLock lock false _) as [[e|] obj3]; simpl.
  all: split; [by apply sameKeys_insert3|done].
Qed.

(** X7: [stopConsumerGroup] and [startConsumerGroup] never add or remove a
    group id, whatever the lock and the outcome, and leave the factory alone:
    [IsManaged] answers after them as before. *)
Theorem stop_start_keep_registry lock groupId m :
  (∀ g, (IsManaged g (stopConsumerGroup lock groupId m).2).1 = (IsManaged g m).1)
  ∧ (∀ g, (IsManaged g (startConsumerGroup lock groupId m).2).1 = (IsManaged g m).1)
  ∧ factory (stopConsumerGroup lock groupId m).2 = factory m
  ∧ factory (startConsumerGroup lock groupId m).2 = factory m.
Proof.
  destruct (stopConsumerGroup_keys lock groupId m) as [Hk1 Hf1].
  destruct (startConsumerGroup_keys lock groupId m) as [Hk2 Hf2].
  split_and!; [| |done..].
  - intros g. unfold IsManaged, bind, getGroup, ret. simpl.
    apply bool_decide_ext, Hk1.
  - intros g. unfold IsManaged, bind, getGroup, ret. simpl.
    apply bool_decide_ext, Hk2.
Qed.

Lemma stopAll_keys keys : ∀ multiErr toRestart m,
  sameKeys m (stopAll keys multiErr toRestart m).2.
Proof.
  induction keys as [|g rest IH]; intros multiErr toRestart m; [done|].
  simpl. unfold bind at 1.
  pose proof (stopConsumerGroup_keys (Some (mkCommandLock internalToken true false)) g m)
    as [Hk _].
  destruct (stopConsumerGroup _ g m) as [[e|] m1]; simpl in *;
    (eapply sameKeys_trans; [exact Hk|apply IH]).
Qed.

Lemma startAll_keys toRestart : ∀ multiErr m,
  sameKeys m (startAll toRestart multiErr m).2.
Proof.
  induction toRestart as [|g rest IH]; intros multiErr m; [done|].
  simpl. unfold bind at 1.
  pose proof (startConsumerGroup_keys (Some (mkCommandLock internalToken false true)) g m)
    as [Hk _].
  destruct (startConsumerGroup _ g m) as [[e|] m1]; simpl in *;
    (eapply sameKeys_trans; [exact Hk|apply IH]).
Qed.

(** X8: [Reconfigure] never adds or removes a group id, whatever order the
    keys are visited in and whatever fails: [IsManaged] answers after it as
    before. *)
Theorem Reconfigure_keeps_registry keys brokers cfg m :
  ∀ g, (IsManaged g (Reconfigure keys brokers cfg m).2).1 = (IsManaged g m).1.
Proof.
  assert (sameKeys m (Reconfigure keys brokers cfg m).2) as Hk.
  { unfold Reconfigure, bind.
    pose proof (stopAll_keys keys [] [] m) as Hk1.
    destruct (stopAll keys [] [] m) as [[multiErr toRestart] m1]. simpl in *.
    eapply sameKeys_trans; [exact Hk1|].
    pose proof (startAll_keys toRestart multiErr
                  (mkManager (mkFactory cfg brokers) (groups m1) (calls m1))) as Hk2.
    intros g. apply (Hk2 g). }
  intros g. unfold IsManaged, bind, getGroup, ret. simpl.
  apply bool_decide_ext, Hk.
Qed.

(** X9: on a manager without groups [Reconfigure] makes no call, returns nil
    and installs the new factory. *)
Theorem Reconfigure_no_groups keys brokers cfg m :
  groups m = ∅ → rangeOrder m keys →
  Reconfigure keys brokers cfg m
  = ([], mkManager (mkFactory cfg brokers) ∅ (calls m)).
Proof.
  intros Hempty Hkeys. unfold rangeOrder in Hkeys.
  rewrite Hempty, map_to_list_empty in Hkeys. simpl in Hkeys.
  apply Permutation_nil_r in Hkeys as ->.
  unfold Reconfigure, bind. simpl. unfold setFactory. by rewrite Hempty.
Qed.




(** X11: a stop or start command of the right version for a group id that is
    not in the map is answered with [NotifyFailed] of a not-managed error, and
    the manager is left as it was. *)
Theorem asyncHandler_unknown_group op cmd m :
  Version cmd = ConsumerGroupAsyncCommandVersion →
  groups m !! GroupId cmd = None →
  ∃ e, asyncHandler op (ParsedGroupCommand cmd) m = ([NotifyFailed e], m)
       ∧ isNotManaged e = true.
Proof.
  intros Hversion Habsent.
  destruct (processAsyncGroupNotification_replies stopConsumerGroup m) as (_ & _ & Hstop).
  destruct (processAsyncGroupNotification_replies startConsumerGroup m) as (_ & _ & Hstart).
  destruct op; unfold asyncHandler.
  - exists (ErrStopNotManaged (GroupId cmd)). split; [|done].
    rewrite (Hstop cmd Hversion).
    destruct (close_stop_absent_group (Lock cmd) _ m Habsent) as (_ & -> & _). done.
  - exists (ErrStartNotManaged (GroupId cmd)). split; [|done].
    rewrite (Hstart cmd Hversion).
    destruct (startConsumerGroup_absent_group (Lock cmd) _ m Habsent) as [-> _]. done.
Qed.

(** X12: a manager from [NewConsumerGroupManager] manages no group; after a
    first [StartConsumerGroup] that the factory serves, it manages that id and
    no other. *)
Theorem first_group_of_new_manager brokers cfg groupId topics handler group :
  newConsumerGroup brokers groupId cfg = inr group →
  let r := StartConsumerGroup groupId topics handler (NewConsumerGroupManager brokers cfg) in
  r.1 = None
  ∧ (∀ g, (IsManaged g (NewConsumerGroupManager brokers cfg)).1 = false)
  ∧ (∀ g, (IsManaged g r.2).1 = bool_decide (g = groupId)).
Proof.
  intros Hok.
  destruct (StartConsumerGroup_registers groupId topics handler
              (NewConsumerGroupManager brokers cfg) group Hok) as (Hnil & Hgroups & _).
  simpl. split_and!; [done| |].
  - intros g. unfold IsManaged, bind, getGroup, ret. simpl.
    rewrite lookup_empty. apply bool_decide_eq_false. by intros [? ?].
  - intros g. unfold IsManaged, bind, getGroup, ret. simpl.
    rewrite Hgroups. simpl. apply bool_decide_ext.
    rewrite lookup_insert_is_Some, lookup_empty. split.
    + intros [->|[_ [? ?]]]; done.
    + intros ->. by left.
Qed.

(** X13: [Errors] changes nothing; it returns nil exactly when [IsManaged]
    answers false, and the channel of the group in the map otherwise. *)
Theorem Errors_nil_iff_unmanaged {Chan} (errors : managedGroup → Chan) groupId m :
  (Errors errors groupId m).2 = m
  ∧ ((Errors errors groupId m).1 = None ↔ (IsManaged groupId m).1 = false)
  ∧ ∀ obj, groups m !! groupId = Some obj → (Errors errors groupId m).1 = Some (errors obj).
Proof.
  unfold Errors, IsManaged, bind, getGroup, ret. cbn [fst snd].
  destruct (groups m !! groupId) as [obj|]; cbn [fst snd].
  - split_and!; [done| |by intros ? [= ->]]. split; [done|].
    intros Hf. rewrite bool_decide_eq_false in Hf. by destruct Hf.
  - split_and!; [done| |done]. split; [|done]. intros _.
    rewrite bool_decide_eq_false. by intros [? ?].
Qed.

End ManagerMore.

Section ManagerMoreInstances.
Import SpecGroup SpecCases.

Lemma CloseConsumerGroup_removes_witness :
  (CloseConsumerGroup (world := collaborators) "g1" twoGroups).1 = None
  ∧ (IsManaged (world := collaborators) "g1"
       (CloseConsumerGroup (world := collaborators) "g1" twoGroups).2).1 = false.
Proof.
  destruct (CloseConsumerGroup_removes (world := collaborators) "g1" twoGroups
              (mkGroup (Some (oldSession "g1")) Running None) eq_refl eq_refl)
    as (Hnil & _ & Hgone & _).
  by split.
Defined.

Lemma CloseConsumerGroup_failure_keeps_witness :
  (CloseConsumerGroup (world := collaborators) "g1" closedManager).1
  = Some (ErrExternal "closed")
  ∧ (IsManaged (world := collaborators) "g1"
       (CloseConsumerGroup (world := collaborators) "g1" closedManager).2).1 = true.
Proof.
  destruct (CloseConsumerGroup_failure_keeps (world := collaborators) "g1" closedManager
              (mkGroup None Closed None) (ErrExternal "closed") eq_refl eq_refl)
    as (Herr & _ & Hstill & _).
  by split.
Defined.

Lemma Start_Close_round_trip_witness :
  groups (CloseConsumerGroup (world := collaborators) "g3"
            (StartConsumerGroup (world := collaborators) "g3" ["t"] tt twoGroups).2).2
  = groups twoGroups.
Proof.
  destruct (Start_Close_round_trip (world := collaborators) "g3" ["t"] tt twoGroups
              (oldSession "g3") eq_refl eq_refl eq_refl)
    as (_ & _ & _ & Hsame & _).
  exact Hsame.
Defined.

Lemma startConsumerGroup_absent_group_witness :
  startConsumerGroup (world := collaborators) (Some startLock) "g9" twoGroups
  = (Some (ErrStartNotManaged "g9"), twoGroups).
Proof.
  apply (startConsumerGroup_absent_group (world := collaborators)
           (Some startLock) "g9" twoGroups).
  reflexivity.
Defined.

Lemma lock_failure_stops_operation_witness :
  (stopConsumerGroup (world := collaborators) (Some tokenLock) "g2" twoGroups).1
  = Some lockConflict
  ∧ (startConsumerGroup (world := collaborators) (Some tokenLock) "g2" twoGroups).1
    = Some lockConflict.
Proof.
  destruct (lock_failure_stops_operation (world := collaborators) (Some tokenLock) "g2"
              twoGroups (mkGroup (Some (oldSession "g2")) Running (Some "X")) lockConflict
              eq_refl eq_refl)
    as [Hstop Hstart].
  rewrite Hstop, Hstart. by split.
Defined.

Lemma startConsumerGroup_factory_failure_witness :
  (startConsumerGroup (world := collaborators) (Some tokenLock) "g1" stoppedNoBrokers).1
  = Some factoryFailed.
Proof.
  rewrite (startConsumerGroup_factory_failure (world := collaborators) (Some tokenLock)
             "g1" stoppedNoBrokers (mkGroup None Stopped None) factoryFailed
             eq_refl eq_refl eq_refl).
  reflexivity.
Defined.

Lemma Reconfigure_no_groups_witness :
  Reconfigure (world := collaborators) [] ["new:9092"] "new" noBrokers
  = ([], mkManager (world := collaborators)
           (mkFactory (world := collaborators) "new" ["new:9092"]) ∅ (calls noBrokers)).
Proof.
  apply (Reconfigure_no_groups (world := collaborators) [] ["new:9092"] "new" noBrokers).
  - reflexivity.
  - unfold rangeOrder. vm_compute. reflexivity.
Defined.

Lemma asyncHandler_unknown_group_witness :
  ∃ e, asyncHandler (world := collaborators) StartConsumerGroupOpCode
         (ParsedGroupCommand strayCommand) twoGroups
       = ([NotifyFailed e], twoGroups)
       ∧ isNotManaged e = true.
Proof.
  apply (asyncHandler_unknown_group (world := collaborators) StartConsumerGroupOpCode
           strayCommand twoGroups); reflexivity.
Defined.

Lemma first_group_of_new_manager_witness :
  (IsManaged (world := collaborators) "g2"
     (StartConsumerGroup (world := collaborators) "g1" ["t"] tt
        (NewConsumerGroupManager (world := collaborators) ["old:9092"] "old")).2).1
  = bool_decide ("g2" = "g1").
Proof.
  destruct (first_group_of_new_manager (world := collaborators) ["old:9092"] "old" "g1"
              ["t"] tt (oldSession "g1") eq_refl)
    as (_ & _ & Honly).
  exact (Honly "g2").
Defined.

End ManagerMoreInstances.

(** * More properties of the factory *)

Section ConsumeLoopMore.

(** X14: the consume loop is left exactly when some [Consume] call returned
    the closed-group sentinel or found the context done; while neither
    happens the goroutine keeps calling [Consume]. *)
Theorem consumeLoop_leaves_iff turns :
  left (consumeLoop turns) = true
  ↔ Exists (λ t, returnsClosed t = true ∨ ctxDone t = true) turns.
Proof.
  induction turns as [|t rest IH].
  - split; [done|]. by intros ?%Exists_nil.
  - rewrite consumeLoop_cons, Exists_cons.
    destruct (returnsClosed t); [by split; [left; left|]|].
    destruct (ctxDone t); [by split; [left; right|]|].
    simpl. rewrite IH. split; [by right|]. by intros [[?|?]|?].
Qed.

(** X15: once the loop is left, whatever the environment would do next changes
    nothing; until then the values sent and the calls counted over two
    stretches of turns add up. *)
Theorem consumeLoop_app turns more :
  consumeLoop (turns ++ more) =
  if left (consumeLoop turns) then consumeLoop turns
  else mkLoopRun (sent (consumeLoop turns) ++ sent (consumeLoop more))
         (consumed (consumeLoop turns) + consumed (consumeLoop more))
         (left (consumeLoop more)).
Proof.
  induction turns as [|t rest IH].
  - simpl. by destruct (consumeLoop more).
  - rewrite <-app_comm_cons, !consumeLoop_cons.
    destruct (returnsClosed t); [reflexivity|].
    destruct (ctxDone t); [reflexivity|]. cbn zeta. rewrite IH.
    destruct (left (consumeLoop rest)) eqn:Hleft; simpl; rewrite ?Hleft; [done|].
    by rewrite app_assoc.
Qed.

End ConsumeLoopMore.

Module ClosingCountProperties.
Import Closing ClosingCount.

Lemma count_app p cs1 cs2 : count p (cs1 ++ cs2) = (count p cs1 + count p cs2)%nat.
Proof. induction cs1 as [|c cs1 IH]; simpl; [done|]. rewrite IH. lia. Qed.

Lemma count_insert p cs i c c' :
  cs !! i = Some c →
  (count p (<[i:=c']> cs) + (if p c then 1 else 0)
   = count p cs + (if p c' then 1 else 0))%nat.
Proof.
  revert i. induction cs as [|a cs IH]; intros [|i] Hi; try done; simpl in *.
  - injection Hi as ->. lia.
  - specialize (IH i Hi). lia.
Qed.

Lemma count_lookup p cs i c :
  cs !! i = Some c → p c = true → (1 ≤ count p cs)%nat.
Proof.
  revert i. induction cs as [|a cs IH]; intros [|i] Hi Hp; try done; simpl in *.
  - injection Hi as ->. rewrite Hp. lia.
  - specialize (IH i Hi Hp). lia.
Qed.

Lemma count_strict cs i :
  cs !! i = Some AtGroupClose → (count hasReturned cs < count released cs)%nat.
Proof.
  revert i. induction cs as [|a cs IH]; intros [|i] Hi; try done; simpl in *.
  - injection Hi as ->. simpl.
    assert (count hasReturned cs ≤ count released cs)%nat; [|lia].
    clear. induction cs as [|[] cs IH]; simpl; lia.
  - specialize (IH i Hi). destruct a; simpl; lia.
Qed.

Lemma countInvariant_init : countInvariant init.
Proof. unfold countInvariant. simpl. split_and!; first [done|lia]. Qed.

Lemma countInvariant_step a s s' :
  countInvariant s → step a s = Some s' → countInvariant s'.
Proof.
  intros (Hzero & Hone & Hcl & Hret & Hcan & Hrc & Hex). unfold countInvariant.
  destruct a as [| | | |i|i|i]; simpl.
  - destruct (routine s) eqn:Hr; intros [= <-]; simpl. rewrite Hr. split_and!; done.
  - destruct (routine s) eqn:Hr; intros [= <-]; simpl.
    split_and!; [by intros _; apply Hzero|done..].
  - destruct (routine s) eqn:Hr; intros [= <-]; simpl.
    split_and!; [by intros _; apply Hzero|done..].
  - intros [= <-]; simpl. rewrite !count_app. simpl.
    split_and!; [intros Hr; specialize (Hzero Hr)| | | |intros Hc; specialize (Hcan Hc)
                | |intros Hr; specialize (Hex Hr)]; lia.
  - destruct (closers s !! i) as [[]|] eqn:Hc; intros [= <-]; simpl.
    pose proof (count_insert released _ _ _ AtReceive Hc) as H1.
    pose proof (count_insert hasReturned _ _ _ AtReceive Hc) as H2.
    pose proof (count_insert hasCancelled _ _ _ AtReceive Hc) as H3.
    simpl in *.
    split_and!; [intros Hr; specialize (Hzero Hr)| | | |done
                | |intros Hr; specialize (Hex Hr)]; lia.
  - destruct (routine s) eqn:Hr; try done.
    destruct (closers s !! i) as [[]|] eqn:Hc; intros [= <-]; simpl.
    pose proof (count_insert released _ _ _ AtGroupClose Hc) as H1.
    pose proof (count_insert hasReturned _ _ _ AtGroupClose Hc) as H2.
    pose proof (count_insert hasCancelled _ _ _ AtGroupClose Hc) as H3.
    pose proof (count_lookup hasCancelled _ _ _ Hc eq_refl) as H4.
    simpl in *. assert (count released (closers s) = 0%nat) as H0 by (by apply Hzero).
    split_and!; [done| | | |intros Hcf; specialize (Hcan Hcf)| |intros _]; lia.
  - destruct (closers s !! i) as [[]|] eqn:Hc; intros [= <-]; simpl.
    pose proof (count_insert released _ _ _ Returned Hc) as H1.
    pose proof (count_insert hasReturned _ _ _ Returned Hc) as H2.
    pose proof (count_insert hasCancelled _ _ _ Returned Hc) as H3.
    pose proof (count_strict _ _ Hc) as H4.
    simpl in *.
    split_and!; [intros Hr; specialize (Hzero Hr)| | | |intros Hcf; specialize (Hcan Hcf)
                | |intros Hr; specialize (Hex Hr)]; lia.
Qed.

Lemma countInvariant_exec schedule : ∀ s s',
  countInvariant s → exec schedule s = Some s' → countInvariant s'.
Proof.
  induction schedule as [|a rest IH]; intros s s' Hinv; simpl.
  - by intros [= <-].
  - destruct (step a s) as [s1|] eqn:Hstep; [|done].
    apply IH. by eapply countInvariant_step.
Qed.

(** X16: however many calls of [Close] are made, at most one of them gets past
    its receive on [releasedCh]: the embedded [ConsumerGroup.Close] runs at
    most once, and no two callers return. *)
Theorem Close_released_once schedule s :
  exec schedule init = Some s →
  (count released (closers s) ≤ 1)%nat
  ∧ (groupCloses s ≤ 1)%nat
  ∧ (∀ i j, closers s !! i = Some Returned → closers s !! j = Some Returned → i = j).
Proof.
  intros Hexec.
  assert (countInvariant s) as (Hzero & Hone & Hcl & Hret & _)
    by (by eapply countInvariant_exec; [apply countInvariant_init|]).
  split_and!; [done|lia|].
  assert (∀ cs i j, cs !! i = Some Returned → cs !! j = Some Returned → i ≠ j →
            (2 ≤ count hasReturned cs)%nat) as Htwo.
  { induction cs as [|c cs IH]; intros [|i] [|j] Hi Hj Hne; try done; simpl in *.
    - injection Hi as ->. simpl.
      assert (1 ≤ count hasReturned cs)%nat; [|lia].
      clear -Hj. revert j Hj. induction cs as [|c cs IH]; intros [|j] Hj; try done; simpl in *.
      + injection Hj as ->. simpl. lia.
      + specialize (IH j Hj). lia.
    - injection Hj as ->. simpl.
      assert (1 ≤ count hasReturned cs)%nat; [|lia].
      clear -Hi. revert i Hi. induction cs as [|c cs IH]; intros [|i] Hi; try done; simpl in *.
      + injection Hi as ->. simpl. lia.
      + specialize (IH i Hi). lia.
    - assert (i ≠ j) by congruence. specialize (IH i j Hi Hj). lia. }
  intros i j Hi Hj. destruct (decide (i = j)) as [|Hne]; [done|].
  specialize (Htwo _ _ _ Hi Hj Hne). lia.
Qed.

(** X17: the goroutine has exited only if some caller of [Close] took its
    signal, which that caller did after cancelling the context: until [Close]
    is called the goroutine stays blocked in its deferred send. *)
Theorem goroutine_exits_only_after_cancel schedule s :
  exec schedule init = Some s →
  routine s = Exited →
  cancelled s = true ∧ errorChClosed s = true
  ∧ count released (closers s) = 1%nat.
Proof.
  intros Hexec Hr.
  assert (countInvariant s) as (Hzero & Hone & Hcl & Hret & Hcan & Hrc & Hex)
    by (by eapply countInvariant_exec; [apply countInvariant_init|]).
  assert (invariant s) as [Hch _]
    by (by eapply ClosingProperties.closing_invariant_exec;
          [apply ClosingProperties.closing_invariant_init|]).
  specialize (Hex Hr). split_and!; [|by apply Hch; right|done].
  destruct (cancelled s); [done|]. specialize (Hcan eq_refl). lia.
Qed.

Lemma Close_released_once_witness :
  ∃ s, exec twoCloses init = Some s ∧ (groupCloses s ≤ 1)%nat
       ∧ closers s = [AtReceive; Returned].
Proof.
  assert (exec twoCloses init
          = Some (mkState Exited [AtReceive; Returned] true true 1)) as Hrun
    by (vm_compute; reflexivity).
  eexists. split; [exact Hrun|].
  destruct (Close_released_once twoCloses _ Hrun) as (_ & Honce & _).
  split; [exact Honce|reflexivity].
Defined.

Lemma goroutine_exits_only_after_cancel_witness :
  ∃ s, exec twoCloses init = Some s ∧ cancelled s = true.
Proof.
  assert (exec twoCloses init
          = Some (mkState Exited [AtReceive; Returned] true true 1)) as Hrun
    by (vm_compute; reflexivity).
  eexists. split; [exact Hrun|].
  destruct (goroutine_exits_only_after_cancel twoCloses _ Hrun eq_refl) as (Hc & _).
  exact Hc.
Defined.

End ClosingCountProperties.

Module MergeMore.
Import Merge MergeOrder MergeProperties.

Implicit Types (s : state) (fs : list forwarder) (cs : list channel).

Lemma owed_le_length fs : owed fs ≤ Z.of_nat (length fs).
Proof. induction fs as [|[] fs IH]; simpl; lia. Qed.

Lemma length_step a s s' :
  step a s = Some s' →
  length (inputs s') = length (inputs s) ∧ length (forwarders s') = length (forwarders s).
Proof.
  destruct a as [i v|i|i|i|i|]; simpl.
  - destruct (inputs s !! i) as [c|]; [|done]. destruct (closed c); [done|].
    intros [= <-]; simpl. by rewrite length_insert.
  - destruct (inputs s !! i) as [c|]; [|done]. destruct (closed c); [done|].
    intros [= <-]; simpl. by rewrite length_insert.
  - destruct (inputs s !! i) as [[[|v rest] cl]|]; try done.
    destruct (forwarders s !! i) as [[]|]; try done.
    intros [= <-]; simpl. by rewrite !length_insert.
  - destruct (forwarders s !! i) as [[]|]; try done.
    case_bool_decide; [|done]. intros [= <-]; simpl. by rewrite length_insert.
  - destruct (inputs s !! i) as [[[|v rest] []]|]; try done.
    destruct (forwarders s !! i) as [[]|]; try done.
    intros [= <-]; simpl. by rewrite length_insert.
  - destruct (waiting s && bool_decide (wg s = 0)); [|done]. by intros [= <-].
Qed.

Lemma length_exec schedule : ∀ s s',
  exec schedule s = Some s' →
  length (inputs s') = length (inputs s) ∧ length (forwarders s') = length (forwarders s).
Proof.
  induction schedule as [|a rest IH]; intros s s'; simpl.
  - by intros [= <-].
  - destruct (step a s) as [s1|] eqn:Hstep; [|done]. intros Hexec.
    destruct (IH _ _ Hexec) as [-> ->]. by eapply length_step.
Qed.

(** X18: [mergeErrorChannels] never drives the [sync.WaitGroup] below zero and
    never sends on the closed [out]: the counter is the number of forwarders
    that have not finished, between zero and the number of inputs, and a
    forwarder holding a value always finds [out] open. *)
Theorem mergeErrorChannels_never_panics channels schedule s :
  exec schedule (mergeErrorChannels channels) = Some s →
  0 ≤ wg s ≤ Z.of_nat (length channels)
  ∧ wg s = owed (forwarders s)
  ∧ length (forwarders s) = length channels
  ∧ length (inputs s) = length channels
  ∧ ∀ i v, forwarders s !! i = Some (Forwarding v) →
      outCloses s = 0%nat ∧ is_Some (step (Deliver i) s).
Proof.
  intros Hexec.
  assert (invariant s) as (Hset & Hwg & Hout)
    by (by eapply merge_invariant_exec; [apply merge_invariant_init|]).
  destruct (length_exec _ _ _ Hexec) as [Hli Hlf]. simpl in Hli, Hlf.
  rewrite length_replicate in Hlf.
  pose proof (owed_nonneg (forwarders s)). pose proof (owed_le_length (forwarders s)).
  split_and!; [lia|lia|done..|].
  intros i v Hf.
  assert (outCloses s = 0%nat) as Hopen.
  { destruct (waiting s); [done|]. destruct Hout as [_ Hzero].
    pose proof (owed_zero (forwarders s)) as Hfin. rewrite <-Hwg in Hfin.
    specialize (Hfin Hzero). eapply Forall_lookup_1 in Hfin; [|done]. done. }
  split; [done|]. simpl. rewrite Hf, bool_decide_true by done. by eexists.
Qed.

Lemma single_step a s s' :
  single s → step a s = Some s' →
  single s' ∧ out s' ++ queued s' = (out s ++ queued s) ++ produced [a].
Proof.
  intros (f & c & Hf & Hc). unfold single, queued, produced.
  destruct a as [i v|i|i|i|i|]; simpl; rewrite ?Hf, ?Hc.
  - destruct i as [|i]; [|done]. simpl. destruct c as [vs []]; [done|]. simpl.
    intros [= <-]; simpl. rewrite ?Hf, ?Hc. simpl. split; [by eexists _, _|].
    rewrite !app_nil_r. by rewrite !app_assoc.
  - destruct i as [|i]; [|done]. simpl. destruct c as [vs []]; [done|]. simpl.
    intros [= <-]; simpl. rewrite ?Hf, ?Hc. simpl. split; [by eexists _, _|].
    by rewrite !app_nil_r.
  - destruct i as [|i]; [|done]. simpl. destruct c as [[|v vs] cl]; [done|].
    destruct f; try done. intros [= <-]; simpl. rewrite ?Hf, ?Hc. simpl.
    split; [by eexists _, _|]. by rewrite !app_nil_r.
  - destruct i as [|i]; [|done]. simpl. destruct f; try done.
    case_bool_decide; [|done]. intros [= <-]; simpl. rewrite ?Hf, ?Hc. simpl.
    split; [by eexists _, _|]. rewrite !app_nil_r. by rewrite <-!app_assoc.
  - destruct i as [|i]; [|done]. simpl. destruct c as [[|v vs] []]; try done.
    destruct f; try done. intros [= <-]; simpl. rewrite ?Hf, ?Hc. simpl.
    split; [by eexists _, _|]. by rewrite !app_nil_r.
  - destruct (waiting s && bool_decide (wg s = 0)); [|done].
    intros [= <-]; simpl. rewrite ?Hf, ?Hc. split; [by eexists _, _|].
    by rewrite !app_nil_r.
Qed.

Lemma single_exec schedule : ∀ s s',
  single s → exec schedule s = Some s' →
  out s' ++ queued s' = (out s ++ queued s) ++ produced schedule.
Proof.
  induction schedule as [|a rest IH]; intros s s' Hsingle; cbn [exec].
  - intros [= <-]. unfold produced. simpl. by rewrite app_nil_r.
  - destruct (step a s) as [s1|] eqn:Hstep; [|done]. intros Hexec.
    destruct (single_step _ _ _ Hsingle Hstep) as [Hsingle1 Heq].
    rewrite (IH _ _ Hsingle1 Hexec), Heq, (produced_cons a rest).
    by rewrite <-!app_assoc.
Qed.

(** X19: merging a single channel keeps the order: the values delivered,
    then the one the forwarder holds, then those pending on the input are the
    values sent on the input, in the order they were sent. *)
Theorem mergeErrorChannels_single_order c schedule s :
  exec schedule (mergeErrorChannels [c]) = Some s →
  out s ++ queued s = pending c ++ produced schedule.
Proof.
  intros Hexec.
  assert (single (mergeErrorChannels [c])) as Hsingle by (by exists Ranging, c).
  rewrite (single_exec _ _ _ Hsingle Hexec).
  unfold queued. simpl. by rewrite !app_nil_r.
Qed.

(** X20: merged from no channel at all, [out] is closed without any value:
    the close is the only step there is, and it is enabled at once. *)
Theorem mergeErrorChannels_no_input schedule s :
  exec schedule (mergeErrorChannels []) = Some s →
  (schedule = [] ∨ schedule = [CloseOut])
  ∧ out s = []
  ∧ exec [CloseOut] (mergeErrorChannels []) = Some (mkState [] [] 0 [] 1 false).
Proof.
  intros Hexec. split_and!; [| |done].
  - destruct schedule as [|a rest]; [by left|]. right.
    destruct a as [i v|i|i|i|i|]; try done.
    simpl in Hexec. destruct rest as [|a rest]; [done|].
    by destruct a as [i v|i|i|i|i|].
  - destruct schedule as [|a rest]; [by injection Hexec as <-|].
    destruct a as [i v|i|i|i|i|]; try done.
    simpl in Hexec. destruct rest as [|a rest]; [by injection Hexec as <-|].
    by destruct a as [i v|i|i|i|i|].
Qed.

Lemma mergeErrorChannels_never_panics_witness :
  ∃ s, exec orderedRun (mergeErrorChannels [oneChannel]) = Some s
       ∧ wg s = 1 ∧ is_Some (step (Deliver 0) s).
Proof.
  assert (exec orderedRun (mergeErrorChannels [oneChannel])
          = Some (mkState [mkChannel [ErrExternal "c"] false]
                    [Forwarding (ErrExternal "b")] 1 [ErrExternal "a"] 0 true)) as Hrun
    by (vm_compute; reflexivity).
  eexists. split; [exact Hrun|].
  destruct (mergeErrorChannels_never_panics [oneChannel] orderedRun _ Hrun)
    as (_ & _ & _ & _ & Hsend).
  split; [reflexivity|]. apply (Hsend 0%nat (ErrExternal "b")). reflexivity.
Defined.

Lemma mergeErrorChannels_single_order_witness :
  ∃ s, exec orderedRun (mergeErrorChannels [oneChannel]) = Some s
       ∧ out s ++ queued s = [ErrExternal "a"; ErrExternal "b"; ErrExternal "c"].
Proof.
  assert (exec orderedRun (mergeErrorChannels [oneChannel])
          = Some (mkState [mkChannel [ErrExternal "c"] false]
                    [Forwarding (ErrExternal "b")] 1 [ErrExternal "a"] 0 true)) as Hrun
    by (vm_compute; reflexivity).
  eexists. split; [exact Hrun|].
  rewrite (mergeErrorChannels_single_order oneChannel orderedRun _ Hrun). reflexivity.
Defined.

Lemma mergeErrorChannels_no_input_witness :
  out (mkState [] [] 0 [] 1 false) = [].
Proof.
  destruct (mergeErrorChannels_no_input [CloseOut] (mkState [] [] 0 [] 1 false) eq_refl)
    as (_ & Hout & _).
  exact Hout.
Defined.

End MergeMore.

(** * Properties of the Kafka settings *)

Module KafkaConfigProperties.
Import KafkaConfig.
Import Stdlib.Strings.Ascii.

Section Secrets.
Variables userKey passwordKey typeKey : string.

Lemma dataString_absent (data : gmap string string) key :
  data !! key = None → dataString data key = "".
Proof. unfold dataString. by intros ->. Qed.

(** X21: [GetAuthConfigFromSecret] returns nil exactly for a nil secret or a
    secret without data; every config it returns has SASL settings whose
    type is never empty. *)
Theorem GetAuthConfigFromSecret_sasl secret :
  (GetAuthConfigFromSecret userKey passwordKey typeKey secret = None
   ↔ secret = None ∨ ∃ sec, secret = Some sec ∧ Data sec = None)
  ∧ ∀ auth, GetAuthConfigFromSecret userKey passwordKey typeKey secret = Some auth →
      ∃ sasl, SASL auth = Some sasl ∧ SaslTypeOf sasl ≠ "".
Proof.
  unfold GetAuthConfigFromSecret. destruct secret as [[[data|]]|]; simpl.
  - split.
    + split; [by destruct (_ || _)|]. by intros [?|(sec & [= <-] & ?)].
    + intros auth.
      destruct (hasKey data TlsEnabled || hasKey data TlsCacert); intros [= <-]; simpl.
      all: eexists; split; [done|]; simpl.
      all: match goal with |- context [String.eqb ?x ""] =>
             destruct (String.eqb_spec x "") end; done.
  - split; [|done]. split; [|done]. intros _. right. by eexists.
  - split; [|done]. split; [|done]. intros _. by left.
Qed.

Lemma ParseBool_empty : ParseBool "" = None.
Proof. by vm_compute. Qed.

(** X22: the config read from a secret has TLS settings exactly when the
    secret holds a non-empty "ca.crt" or a "tls.enabled" that [ParseBool]
    reads as true. *)
Theorem GetAuthConfigFromSecret_tls data auth :
  GetAuthConfigFromSecret userKey passwordKey typeKey (Some (mkSecret (Some data)))
  = Some auth →
  is_Some (TLS auth)
  ↔ dataString data TlsCacert ≠ "" ∨ ParseBool (dataString data TlsEnabled) = Some true.
Proof.
  unfold GetAuthConfigFromSecret, hasKey. simpl.
  destruct (data !! TlsEnabled) as [en|] eqn:Hen;
    destruct (data !! TlsCacert) as [ca|] eqn:Hca; simpl.
  4:{ intros [= <-]; simpl. rewrite !dataString_absent by done.
      rewrite ParseBool_empty. split; [by intros [? ?]|]. by intros [?|?]. }
  all: intros [= <-]; simpl; unfold parseTls.
  all: destruct (String.eqb_spec (dataString data TlsCacert) "") as [Hempty|Hcert]; simpl.
  all: try (split; [by left|by eexists]).
  all: destruct (ParseBool (dataString data TlsEnabled)) as [[]|]; simpl.
  all: split; [intros [? ?]|intros [?|?]]; try done; try (by right); by eexists.
Qed.

(** X23: once a secret holds one of the two older TLS keys, the values under
    the newer user-name and SASL-type keys are not read: changing them does
    not change the config. *)
Theorem GetAuthConfigFromSecret_legacy_ignores_new_keys data value :
  hasKey data TlsEnabled || hasKey data TlsCacert = true →
  userKey ∉ [TlsEnabled; TlsCacert; TlsUsercert; TlsUserkey; SaslUser; SaslType;
             passwordKey] →
  typeKey ∉ [TlsEnabled; TlsCacert; TlsUsercert; TlsUserkey; SaslUser; SaslType;
             passwordKey] →
  GetAuthConfigFromSecret userKey passwordKey typeKey
    (Some (mkSecret (Some (<[userKey := value]> data))))
  = GetAuthConfigFromSecret userKey passwordKey typeKey (Some (mkSecret (Some data)))
  ∧ GetAuthConfigFromSecret userKey passwordKey typeKey
      (Some (mkSecret (Some (<[typeKey := value]> data))))
    = GetAuthConfigFromSecret userKey passwordKey typeKey (Some (mkSecret (Some data))).
Proof.
  intros Hlegacy Huser Htype.
  assert (∀ k, k ∉ [TlsEnabled; TlsCacert; TlsUsercert; TlsUserkey; SaslUser; SaslType;
                     passwordKey] →
            GetAuthConfigFromSecret userKey passwordKey typeKey
              (Some (mkSecret (Some (<[k := value]> data))))
            = GetAuthConfigFromSecret userKey passwordKey typeKey
                (Some (mkSecret (Some data)))) as Hgen.
  { intros k Hk. rewrite !not_elem_of_cons in Hk.
    destruct Hk as (H1 & H2 & H3 & H4 & H5 & H6 & H7 & _).
    unfold GetAuthConfigFromSecret, hasKey, parseTls, dataString in *.
    cbn [Data].
    rewrite ?(lookup_insert_ne data k TlsEnabled value) by done.
    rewrite ?(lookup_insert_ne data k TlsCacert value) by done.
    rewrite ?(lookup_insert_ne data k TlsUsercert value) by done.
    rewrite ?(lookup_insert_ne data k TlsUserkey value) by done.
    rewrite ?(lookup_insert_ne data k SaslUser value) by done.
    rewrite ?(lookup_insert_ne data k SaslType value) by done.
    rewrite ?(lookup_insert_ne data k passwordKey value) by done.
    by rewrite Hlegacy. }
  split; by apply Hgen.
Qed.

End Secrets.

(** X24: [NumPartitions] and [ReplicationFactor] are positive exactly when the
    channel's own value is positive or a configuration with a positive default
    is at hand, and a positive value of the channel always wins. *)
Theorem NumPartitions_ReplicationFactor_positive channel configuration :
  (0 < NumPartitions channel configuration
   ↔ 0 < SpecNumPartitions channel
     ∨ ∃ c, configuration = Some c ∧ 0 < DefaultNumPartitions c)
  ∧ (0 < ReplicationFactor channel configuration
     ↔ 0 < SpecReplicationFactor channel
       ∨ ∃ c, configuration = Some c ∧ 0 < DefaultReplicationFactor c)
  ∧ (0 < SpecNumPartitions channel →
     NumPartitions channel configuration = SpecNumPartitions channel)
  ∧ (0 < SpecReplicationFactor channel →
     ReplicationFactor channel configuration = SpecReplicationFactor channel).
Proof.
  unfold NumPartitions, ReplicationFactor.
  destruct configuration as [c|]; simpl; repeat case_bool_decide;
    split_and!; try lia; try (intros; lia).
  all: try (split; [intros ?; first [by left|right; by eexists]
                   |intros [?|(c' & [= <-] & ?)]; lia]).
  all: split; [by left|]; by intros [?|(c' & ? & ?)].
Qed.



Lemma append_length (s1 s2 : string) :
  String.length (s1 +:+ s2) = (String.length s1 + String.length s2)%nat.
Proof. induction s1 as [|a s1 IH]; simpl; [done|]. by rewrite IH. Qed.

Lemma hexDigits_length n v : String.length (hexDigits n v) = n.
Proof.
  revert v. induction n as [|n IH]; intros v; simpl; [done|].
  rewrite append_length, IH. simpl. lia.
Qed.

Lemma hexDigit_hex d : isHexDigit (hexDigit d) = true.
Proof.
  destruct d as [|p|p]; [done| |done].
  do 4 (destruct p as [p|p|]; try done).
Qed.

Lemma forall_append (s1 s2 : string) :
  Forall (λ a, isHexDigit a = true) (String.list_ascii_of_string (s1 +:+ s2))
  ↔ Forall (λ a, isHexDigit a = true) (String.list_ascii_of_string s1)
    ∧ Forall (λ a, isHexDigit a = true) (String.list_ascii_of_string s2).
Proof.
  induction s1 as [|a s1 IH]; simpl.
  - split; [by split; [constructor|]|by intros [_ ?]].
  - rewrite !Forall_cons, IH. tauto.
Qed.

Lemma hexDigits_hex n v :
  Forall (λ a, isHexDigit a = true) (String.list_ascii_of_string (hexDigits n v)).
Proof.
  revert v. induction n as [|n IH]; intros v; simpl; [constructor|].
  apply forall_append. split; [apply IH|]. simpl.
  repeat constructor. apply hexDigit_hex.
Qed.

Lemma append_last_inj (s1 s2 : string) a b :
  s1 +:+ String a "" = s2 +:+ String b "" → s1 = s2 ∧ a = b.
Proof.
  revert s2. induction s1 as [|c s1 IH]; intros [|d s2]; simpl.
  - by intros [= ->].
  - intros [= -> Hrest]. by destruct s2.
  - intros [= -> Hrest]. by destruct s1.
  - intros [= -> Hrest]. destruct (IH _ Hrest) as [-> ->]. done.
Qed.

Lemma hexDigit_inj d d' :
  0 ≤ d < 16 → 0 ≤ d' < 16 → hexDigit d = hexDigit d' → d = d'.
Proof.
  intros Hd Hd'.
  assert (d = 0 ∨ d = 1 ∨ d = 2 ∨ d = 3 ∨ d = 4 ∨ d = 5 ∨ d = 6 ∨ d = 7 ∨ d = 8
          ∨ d = 9 ∨ d = 10 ∨ d = 11 ∨ d = 12 ∨ d = 13 ∨ d = 14 ∨ d = 15) as Hcase by lia.
  assert (d' = 0 ∨ d' = 1 ∨ d' = 2 ∨ d' = 3 ∨ d' = 4 ∨ d' = 5 ∨ d' = 6 ∨ d' = 7 ∨ d' = 8
          ∨ d' = 9 ∨ d' = 10 ∨ d' = 11 ∨ d' = 12 ∨ d' = 13 ∨ d' = 14 ∨ d' = 15)
    as Hcase' by lia.
  clear Hd Hd'.
  repeat (destruct Hcase as [->|Hcase]); try subst d;
    repeat (destruct Hcase' as [->|Hcase']); try subst d'; simpl; done.
Qed.

Lemma hexDigits_inj n : ∀ v w,
  0 ≤ v < 16 ^ Z.of_nat n → 0 ≤ w < 16 ^ Z.of_nat n →
  hexDigits n v = hexDigits n w → v = w.
Proof.
  induction n as [|n IH]; intros v w Hv Hw; simpl.
  - intros _. simpl in *. lia.
  - rewrite Nat2Z.inj_succ, Z.pow_succ_r in Hv, Hw by lia.
    intros [Hhigh Hlow]%append_last_inj.
    apply hexDigit_inj in Hlow; [|by apply Z.mod_pos_bound..].
    apply IH in Hhigh.
    + rewrite (Z.div_mod v 16), (Z.div_mod w 16) by lia. congruence.
    + split; [apply Z.div_pos; lia|]. apply Z.div_lt_upper_bound; lia.
    + split; [apply Z.div_pos; lia|]. apply Z.div_lt_upper_bound; lia.
Qed.

Section CheckSum.
Variable formatMap : gmap string string → string.
Variable ChecksumIEEE : string → Z.

(** X25: [ConfigmapDataCheckSum] is the empty string for the nil map only: for
    every other map, the empty one included, it is eight lower-case
    hexadecimal digits. *)
Theorem ConfigmapDataCheckSum_shape :
  ConfigmapDataCheckSum formatMap ChecksumIEEE None = ""
  ∧ ∀ data,
      String.length (ConfigmapDataCheckSum formatMap ChecksumIEEE (Some data)) = 8%nat
      ∧ Forall (λ a, isHexDigit a = true)
          (String.list_ascii_of_string
             (ConfigmapDataCheckSum formatMap ChecksumIEEE (Some data)))
      ∧ ConfigmapDataCheckSum formatMap ChecksumIEEE (Some data) ≠ "".
Proof.
  split; [done|]. intros data. unfold ConfigmapDataCheckSum, Sprintf08x.
  split_and!.
  - apply hexDigits_length.
  - apply hexDigits_hex.
  - intros Hempty. apply (f_equal String.length) in Hempty.
    by rewrite hexDigits_length in Hempty.
Qed.

(** X26: two maps get the same checksum string exactly when their CRC-32
    values are the same: the formatting loses nothing. *)
Theorem ConfigmapDataCheckSum_equal data1 data2 :
  ConfigmapDataCheckSum formatMap ChecksumIEEE (Some data1)
  = ConfigmapDataCheckSum formatMap ChecksumIEEE (Some data2)
  ↔ ChecksumIEEE (formatMap data1) mod 2 ^ 32 = ChecksumIEEE (formatMap data2) mod 2 ^ 32.
Proof.
  unfold ConfigmapDataCheckSum, Sprintf08x. split; [|by intros ->].
  apply (hexDigits_inj 8).
  - change (16 ^ Z.of_nat 8) with (2 ^ 32). by apply Z.mod_pos_bound.
  - change (16 ^ Z.of_nat 8) with (2 ^ 32). by apply Z.mod_pos_bound.
Qed.

End CheckSum.


Lemma GetAuthConfigFromSecret_sasl_witness :
  ∃ sasl, SASL (mkAuth (Some (mkTls "CA" "CERT" "KEY")) (Some (mkSasl "alice" "pw" "PLAIN")))
          = Some sasl ∧ SaslTypeOf sasl ≠ "".
Proof.
  apply (proj2 (GetAuthConfigFromSecret_sasl "username" "password" "sasltype"
                  (Some legacySecret))).
  vm_compute. reflexivity.
Defined.

Lemma GetAuthConfigFromSecret_tls_witness :
  is_Some (TLS (mkAuth (Some (mkTls "CA" "CERT" "KEY")) (Some (mkSasl "alice" "pw" "PLAIN"))))
  ↔ dataString (<["ca.crt" := "CA"]> (<["user.crt" := "CERT"]> (<["user.key" := "KEY"]>
               (<["user" := "alice"]> (<["password" := "pw"]> ∅))))) TlsCacert ≠ ""
    ∨ ParseBool (dataString (<["ca.crt" := "CA"]> (<["user.crt" := "CERT"]>
                 (<["user.key" := "KEY"]> (<["user" := "alice"]>
                 (<["password" := "pw"]> ∅))))) TlsEnabled) = Some true.
Proof.
  apply (GetAuthConfigFromSecret_tls "username" "password" "sasltype").
  vm_compute. reflexivity.
Defined.

Lemma GetAuthConfigFromSecret_legacy_ignores_new_keys_witness :
  GetAuthConfigFromSecret "username" "password" "sasltype"
    (Some (mkSecret (Some (<["username" := "eve"]> (<["ca.crt" := "CA"]> ∅)))))
  = GetAuthConfigFromSecret "username" "password" "sasltype"
      (Some (mkSecret (Some (<["ca.crt" := "CA"]> ∅)))).
Proof.
  apply (GetAuthConfigFromSecret_legacy_ignores_new_keys "username" "password" "sasltype"
           (<["ca.crt" := "CA"]> ∅) "eve").
  - vm_compute. reflexivity.
  - vm_compute. intros Hin. repeat (apply elem_of_cons in Hin as [Hin|Hin]; [discriminate|]).
    by apply elem_of_nil in Hin.
  - vm_compute. intros Hin. repeat (apply elem_of_cons in Hin as [Hin|Hin]; [discriminate|]).
    by apply elem_of_nil in Hin.
Defined.

Lemma NumPartitions_ReplicationFactor_positive_witness :
  NumPartitions (mkChannelSpec 3 0) (Some (mkEventingConfig 4 2)) = 3.
Proof.
  apply (proj1 (proj2 (proj2 (NumPartitions_ReplicationFactor_positive
                                (mkChannelSpec 3 0) (Some (mkEventingConfig 4 2)))))).
  reflexivity.
Defined.

End KafkaConfigProperties.
